(** * Slate kernel builder and halo exchange: a shallow embedding

    The development follows [firedrake/slate/slac/kernel_builder.py] and
    [firedrake/halo.py].  Python objects that are compared by identity are
    given an explicit object identifier; Python dictionaries that keep
    insertion order are association lists; attributes that are assigned in
    place become fields of a state record that every method threads.

    The first part of the file holds the model, the second part the lemmas
    and theorems about it. *)

From stdpp Require Import base gmap sets list strings pretty sorting.

Set Warnings "-register-all,-clear-no-such-hyp".

(* ===================================================================== *)
(** * Part I: the model                                                   *)
(* ===================================================================== *)

(** ** Python results *)

(** The exceptions the two modules can raise. *)
Inductive exn : Type :=
| AssertionError (msg : string)
| NotImplementedError (msg : string)
| RuntimeError (msg : string)
| KeyError
| AttributeError (msg : string)
| CompilationError (msg : string).

Inductive result (A : Type) : Type :=
| Ok (a : A)
| Raise (e : exn).
Arguments Ok {A} a.
Arguments Raise {A} e.

(** ** Slate expressions ([firedrake.slate.slate]) *)

(** A [TensorBase] object is either a terminal [Tensor] or a [TensorOp]
    with operands.  [oid] is the identity of the Python object: two nodes
    are the same vertex of the expression graph exactly when their [oid]
    agree.  [action] records whether the operator is an instance of the
    subclass [Action]. *)
Inductive TensorBase : Type :=
| Tensor (oid : nat)
| TensorOp (oid : nat) (action : bool) (operands : list TensorBase).

Definition node_id (t : TensorBase) : nat :=
  match t with
  | Tensor i => i
  | TensorOp i _ _ => i
  end.

(** [tensor.operands]; a terminal tensor has none. *)
Definition operands (t : TensorBase) : list TensorBase :=
  match t with
  | Tensor _ => []
  | TensorOp _ _ ops => ops
  end.

(** [isinstance(t, Tensor)], [isinstance(t, TensorOp)], [isinstance(t, Action)] *)
Definition is_Tensor (t : TensorBase) : bool :=
  match t with Tensor _ => true | TensorOp _ _ _ => false end.

Definition is_TensorOp (t : TensorBase) : bool :=
  match t with Tensor _ => false | TensorOp _ _ _ => true end.

Definition is_Action (t : TensorBase) : bool :=
  match t with Tensor _ => false | TensorOp _ a _ => a end.

(** Every node object met below [t], [t] included, one entry per path. *)
Fixpoint subterms (t : TensorBase) : list TensorBase :=
  t :: match t with
       | Tensor _ => []
       | TensorOp _ _ ops => ops ≫= subterms
       end.

(** Number of node occurrences below [t]; bounds the work of a traversal. *)
Fixpoint tensor_size (t : TensorBase) : nat :=
  match t with
  | Tensor _ => 1
  | TensorOp _ _ ops => S (sum_list (tensor_size <$> ops))
  end.

(** The same expression built again from other node objects: every object
    identifier [i] is replaced by [f i]. *)
Fixpoint rename (f : nat → nat) (t : TensorBase) : TensorBase :=
  match t with
  | Tensor i => Tensor (f i)
  | TensorOp i a ops => TensorOp (f i) a (rename f <$> ops)
  end.

(** Object identity is coherent in [t]: two node objects of [t] with the
    same identifier are the same object. *)
Definition identity_coherent (t : TensorBase) : Prop :=
  ∀ a b, a ∈ subterms t → b ∈ subterms t → node_id a = node_id b → a = b.

(** The identities of the node objects of [t]. *)
Definition node_ids (t : TensorBase) : gset nat :=
  list_to_set (node_id <$> subterms t).

(** [f] sends distinct identities of [U] to distinct identities. *)
Definition injective_on (f : nat → nat) (U : gset nat) : Prop :=
  ∀ a b, a ∈ U → b ∈ U → f a = f b → a = b.

(** ** Helpers of [firedrake.slate.slac.utils] *)

(** The operands not seen so far are marked as seen and pushed, in order,
    on the work stack; the head of [container] is the element that
    [container.pop()] returns. *)
Fixpoint push_unseen (ops : list TensorBase) (seen : gset nat)
    (container : list TensorBase) : gset nat * list TensorBase :=
  match ops with
  | [] => (seen, container)
  | operand :: ops' =>
      if decide (node_id operand ∈ seen)
      then push_unseen ops' seen container
      else push_unseen ops' ({[node_id operand]} ∪ seen) (operand :: container)
  end.

(** The loop [while container]: the node on top of the stack is popped
    and yielded, and its unseen operands are pushed. *)
Fixpoint traverse_loop (fuel : nat) (seen : gset nat)
    (container : list TensorBase) : list TensorBase :=
  match fuel, container with
  | S fuel', tensor :: rest =>
      let '(seen', container') := push_unseen (operands tensor) seen rest in
      tensor :: traverse_loop fuel' seen' container'
  | _, _ => []
  end.

(** Modelled from the spec: [traverse_dags] of [firedrake.slate.slac.utils]
    is not among the sources.  The spec (DAG Analyzer) asks for one
    reproducible traversal of the graph in which every node is met once,
    whatever the number of edges that lead to it.  It is modelled as a
    worklist traversal with a set of seen identities; the fuel is the
    number of node occurrences on the initial work stack, which the loop
    never exhausts (see [traverse_dags_complete]). *)
Definition traverse_dags (exprs : list TensorBase) : list TensorBase :=
  let '(seen, container) := push_unseen exprs ∅ [] in
  traverse_loop (sum_list (tensor_size <$> container)) seen container.

(** One more edge into [operand]. *)
Definition count_edge (rc : gmap nat nat) (operand : TensorBase) : gmap nat nat :=
  <[node_id operand := S (default 0 (rc !! node_id operand))]> rc.

(** [node] gets an entry (with no incoming edge yet) and each of its
    operand edges is counted. *)
Definition count_node (rc : gmap nat nat) (node : TensorBase) : gmap nat nat :=
  foldl count_edge
        (<[node_id node := default 0 (rc !! node_id node)]> rc)
        (operands node).

(** Modelled from the spec: [collect_reference_count] of
    [firedrake.slate.slac.utils] is not among the sources.  The spec
    (Reference-Count Collector) asks for a mapping from every reachable
    node, by identity, to the number of edges that point to it from the
    nodes of the graph, multiplicities counted. *)
Definition collect_reference_count (exprs : list TensorBase) : gmap nat nat :=
  foldl count_node ∅ (traverse_dags exprs).

(** The number of operand edges of [nodes] that point to the node with
    identity [i]. *)
Definition in_edges (nodes : list TensorBase) (i : nat) : nat :=
  sum_list ((λ n, length (filter (λ o, node_id o = i) (operands n))) <$> nodes).

(** Modelled from the spec: [count_operands] of
    [firedrake.slate.slac.utils] is not among the sources.  The spec names
    the sort key of the auxiliary expressions the operand count of the
    node. *)
Definition count_operands (t : TensorBase) : nat := length (operands t).

(** ** Python's [sorted(l, key=...)] *)

(** [sorted] is stable: among elements with equal keys the input order is
    kept.  [insert_by] puts [x], which precedes [l] in the input, before
    the first element whose key is not smaller. *)
Fixpoint insert_by {A : Type} (key : A → nat) (x : A) (l : list A) : list A :=
  match l with
  | [] => [x]
  | y :: l' =>
      if decide (key x ≤ key y) then x :: y :: l' else y :: insert_by key x l'
  end.

Definition sorted {A : Type} (key : A → nat) (l : list A) : list A :=
  foldr (insert_by key) [] l.

(** ** COFFEE ([coffee.base]) *)

(** [ast.Symbol(name)] *)
Record Symbol : Type := { symbol : string }.

(** The COFFEE nodes the builder handles: the root [ast.Node(children)],
    [ast.Block], [ast.FunDecl] and any other statement. *)
Inductive Node : Type :=
| Root (children : list Node)
| Block (children : list Node)
| FunDecl (ret name : string) (args : list Node) (body : Node) (pred : list string)
| Statement (code : string).

Definition is_Block (n : Node) : bool :=
  match n with Block _ => true | _ => false end.

(** ** [generate_expr_data] *)

(** The temporaries are an [OrderedDict] keyed by node objects. *)
Definition Temps : Type := list (TensorBase * Symbol).

Definition temps_keys (temps : Temps) : list nat := (node_id ∘ fst) <$> temps.

(** [temps.setdefault(tensor, sym)]: a key already present keeps its
    value and its place, a new key is appended. *)
Definition setdefault (temps : Temps) (tensor : TensorBase) (sym : Symbol) : Temps :=
  if decide (node_id tensor ∈ temps_keys temps) then temps
  else temps ++ [(tensor, sym)].

(** One iteration of the loop over [traverse_dags([expr])]. *)
Definition expr_data_step (st : Temps * list TensorBase) (tensor : TensorBase)
    : Temps * list TensorBase :=
  match tensor with
  | Tensor _ =>
      (setdefault st.1 tensor {| symbol := "T" +:+ pretty (length st.1) |}, st.2)
  | TensorOp _ _ _ => (st.1, st.2 ++ [tensor])
  end.

Definition generate_expr_data (expr : TensorBase) : Temps * list TensorBase :=
  let st := foldl expr_data_step ([], []) (traverse_dags [expr]) in
  (st.1, sorted count_operands st.2).

(** ** UFL coefficients *)

(** The class of [coefficient.ufl_element()].  [VectorElement] and
    [TensorElement] are subclasses of [MixedElement] in UFL; the builder
    compares the class itself, [type(...) == MixedElement]. *)
Inductive ufl_element_class : Type :=
| FiniteElement
| MixedElement
| VectorElement
| TensorElement
| EnrichedElement.

#[global] Instance ufl_element_class_eq_dec : EqDecision ufl_element_class.
Proof. solve_decision. Defined.

(** A coefficient: [ufl_count] is the number UFL gives it, by which it is
    hashed and compared; [split] holds the components [coefficient.split()]
    returns, given by their own numbers. *)
Record Coefficient : Type := {
  ufl_count : nat;
  ufl_element : ufl_element_class;
  split : list nat
}.

(** The coefficient map is an [OrderedDict] from coefficients to tuples of
    symbols. *)
Definition CoefficientMap : Type := list (Coefficient * list Symbol).

(** [m[c] = v]: an existing key keeps its place and gets the new value,
    a new key is appended. *)
Fixpoint od_set (m : CoefficientMap) (c : Coefficient) (v : list Symbol)
    : CoefficientMap :=
  match m with
  | [] => [(c, v)]
  | (c', v') :: m' =>
      if decide (ufl_count c' = ufl_count c) then (c', v) :: m'
      else (c', v') :: od_set m' c v
  end.

(** [m[c]], [None] standing for the [KeyError]. *)
Fixpoint od_get (m : CoefficientMap) (c : Coefficient) : option (list Symbol) :=
  match m with
  | [] => None
  | (c', v') :: m' =>
      if decide (ufl_count c' = ufl_count c) then Some v' else od_get m' c
  end.

(** ** TSFC kernels ([firedrake.slate.slac.tsfc_driver]) *)

(** [kinfo.subdomain_id] is the string ["otherwise"] or a subdomain number. *)
Inductive SubdomainId : Type :=
| SubdomainName (s : string)
| SubdomainNumber (n : nat).

#[global] Instance SubdomainId_eq_dec : EqDecision SubdomainId.
Proof. solve_decision. Defined.

Record Kernel : Type := { _ast : Node }.

Module KernelInfo.
Record t : Type := {
  kernel : Kernel;
  integral_type : string;
  oriented : bool;
  subdomain_id : SubdomainId
}.
End KernelInfo.

Record SplitKernel : Type := {
  indices : list nat;
  kinfo : KernelInfo.t
}.

Record ContextKernel : Type := {
  tensor : TensorBase;
  original_integral_type : string;
  tsfc_kernels : list SplitKernel
}.

(** The subkernel is on the default subdomain. *)
Definition default_subdomain (sk : SplitKernel) : bool :=
  bool_decide (KernelInfo.subdomain_id (kinfo sk) = SubdomainName "otherwise").

(** ** The collaborators of the builder *)

(** What the builder calls and this repository's sources at hand do not
    define: [expression.coefficients()], [compile_terminal_form] of the
    TSFC driver, which can fail, and [Transformer().visit]. *)
Class Collaborators : Type := {
  coefficients : TensorBase → list Coefficient;
  compile_terminal_form :
    TensorBase → string → option (list (string * string)) →
    result (list ContextKernel);
  visit : Node → Node
}.

(** ** [KernelBuilder] *)

(** The attributes of a builder.  The two [cached_*] fields are the
    entries that [cached_property] writes into the instance dictionary at
    the first access of [coefficient_map] and [context_kernels]. *)
Record KernelBuilder : Type := {
  expression : TensorBase;
  tsfc_parameters : option (list (string * string));
  needs_cell_facets : bool;
  needs_mesh_layers : bool;
  oriented : bool;
  finalized_ast : option (list Node);
  _is_finalized : bool;
  temps : Temps;
  aux_exprs : list TensorBase;
  cached_coefficient_map : option CoefficientMap;
  cached_context_kernels : option (list ContextKernel)
}.

(** The loop of [__init__] over [tensor_ops]; [ref_counts[op]] raises
    [KeyError] for a node without an entry. *)
Fixpoint select_aux_exprs (ref_counts : gmap nat nat)
    (tensor_ops aux_exprs : list TensorBase) : result (list TensorBase) :=
  match tensor_ops with
  | [] => Ok aux_exprs
  | op :: rest =>
      match ref_counts !! node_id op with
      | None => Raise KeyError
      | Some n =>
          if bool_decide (1 < n) || is_Action op
          then select_aux_exprs ref_counts rest (aux_exprs ++ [op])
          else select_aux_exprs ref_counts rest aux_exprs
      end
  end.

(** The test of that loop for a node that has an entry. *)
Definition needs_temporary (ref_counts : gmap nat nat) (op : TensorBase) : bool :=
  bool_decide (1 < default 0 (ref_counts !! node_id op)) || is_Action op.

(** [KernelBuilder(expression, tsfc_parameters)].  The argument type
    stands for the assertion [isinstance(expression, TensorBase)]. *)
Definition __init__ (expression : TensorBase)
    (tsfc_parameters : option (list (string * string))) : result KernelBuilder :=
  let '(temps, tensor_ops) := generate_expr_data expression in
  let ref_counts := collect_reference_count [expression] in
  match select_aux_exprs ref_counts tensor_ops [] with
  | Raise e => Raise e
  | Ok aux_exprs =>
      Ok {| expression := expression;
            tsfc_parameters := tsfc_parameters;
            needs_cell_facets := false;
            needs_mesh_layers := false;
            oriented := false;
            finalized_ast := None;
            _is_finalized := false;
            temps := temps;
            aux_exprs := aux_exprs;
            cached_coefficient_map := None;
            cached_context_kernels := None |}
  end.

Definition integral_type (self : KernelBuilder) : string := "cell".

Definition require_cell_facets (self : KernelBuilder) : KernelBuilder :=
  {| expression := expression self;
     tsfc_parameters := tsfc_parameters self;
     needs_cell_facets := true;
     needs_mesh_layers := needs_mesh_layers self;
     oriented := oriented self;
     finalized_ast := finalized_ast self;
     _is_finalized := _is_finalized self;
     temps := temps self;
     aux_exprs := aux_exprs self;
     cached_coefficient_map := cached_coefficient_map self;
     cached_context_kernels := cached_context_kernels self |}.

Definition require_mesh_layers (self : KernelBuilder) : KernelBuilder :=
  {| expression := expression self;
     tsfc_parameters := tsfc_parameters self;
     needs_cell_facets := needs_cell_facets self;
     needs_mesh_layers := true;
     oriented := oriented self;
     finalized_ast := finalized_ast self;
     _is_finalized := _is_finalized self;
     temps := temps self;
     aux_exprs := aux_exprs self;
     cached_coefficient_map := cached_coefficient_map self;
     cached_context_kernels := cached_context_kernels self |}.

(** The symbols of the coefficient at position [i]. *)
Definition csym_info (i : nat) (coefficient : Coefficient) : list Symbol :=
  if decide (ufl_element coefficient = MixedElement)
  then imap (λ j _, {| symbol := "w_" +:+ pretty i +:+ "_" +:+ pretty j |})
            (split coefficient)
  else [ {| symbol := "w_" +:+ pretty i |} ].

(** The loop of [coefficient_map] over [enumerate(...coefficients())],
    from position [i] on. *)
Fixpoint fill_coefficient_map (i : nat) (cs : list Coefficient)
    (coefficient_map : CoefficientMap) : CoefficientMap :=
  match cs with
  | [] => coefficient_map
  | coefficient :: rest =>
      fill_coefficient_map (S i) rest
        (od_set coefficient_map coefficient (csym_info i coefficient))
  end.

Section Builder.
Context `{!Collaborators}.

(** The cached property [coefficient_map]: the stored mapping if there is
    one, else the mapping is built and stored. *)
Definition coefficient_map (self : KernelBuilder)
    : CoefficientMap * KernelBuilder :=
  match cached_coefficient_map self with
  | Some m => (m, self)
  | None =>
      let m := fill_coefficient_map 0 (coefficients (expression self)) [] in
      (m,
       {| expression := expression self;
          tsfc_parameters := tsfc_parameters self;
          needs_cell_facets := needs_cell_facets self;
          needs_mesh_layers := needs_mesh_layers self;
          oriented := oriented self;
          finalized_ast := finalized_ast self;
          _is_finalized := _is_finalized self;
          temps := temps self;
          aux_exprs := aux_exprs self;
          cached_coefficient_map := Some m;
          cached_context_kernels := cached_context_kernels self |})
  end.

Definition coefficient (c : Coefficient) (self : KernelBuilder)
    : result (list Symbol) * KernelBuilder :=
  let '(m, self') := coefficient_map self in
  match od_get m c with
  | Some syms => (Ok syms, self')
  | None => (Raise KeyError, self')
  end.

(** The first comprehension of [context_kernels]: one call of
    [compile_terminal_form] per key of [temps], with the prefix
    ["subkernel%d_" % i]; the first failure is propagated. *)
Fixpoint compile_terminals (i : nat) (exprs : list TensorBase)
    (params : option (list (string * string)))
    : result (list (list ContextKernel)) :=
  match exprs with
  | [] => Ok []
  | expr :: rest =>
      match compile_terminal_form expr ("subkernel" +:+ pretty i +:+ "_") params with
      | Raise e => Raise e
      | Ok cxt_tuple =>
          match compile_terminals (S i) rest params with
          | Raise e => Raise e
          | Ok cxt_list => Ok (cxt_tuple :: cxt_list)
          end
      end
  end.

(** The cached property [context_kernels]; nothing is stored when the
    computation raises. *)
Definition context_kernels (self : KernelBuilder)
    : result (list ContextKernel) * KernelBuilder :=
  match cached_context_kernels self with
  | Some ks => (Ok ks, self)
  | None =>
      match compile_terminals 0 (fst <$> temps self) (tsfc_parameters self) with
      | Raise e => (Raise e, self)
      | Ok cxt_list =>
          let cxt_kernels := concat cxt_list in
          (Ok cxt_kernels,
           {| expression := expression self;
              tsfc_parameters := tsfc_parameters self;
              needs_cell_facets := needs_cell_facets self;
              needs_mesh_layers := needs_mesh_layers self;
              oriented := oriented self;
              finalized_ast := finalized_ast self;
              _is_finalized := _is_finalized self;
              temps := temps self;
              aux_exprs := aux_exprs self;
              cached_coefficient_map := cached_coefficient_map self;
              cached_context_kernels := Some cxt_kernels |})
      end
  end.

(** [construct_macro_kernel(name, args, statements)] *)
Definition construct_macro_kernel (name : string) (args : list Node)
    (statements : Node) : result Node :=
  if is_Block statements
  then Ok (FunDecl "void" name args statements ["static"; "inline"])
  else Raise (AssertionError "Body statements must be wrapped in an ast.Block").

(** The loop of [_finalize_kernels_and_update] over [splitkernels], on the
    local variables [oriented] and [kernel_list]. *)
Fixpoint finalize_loop (splitkernels : list SplitKernel) (oriented : bool)
    (kernel_list : list Node) : result (bool * list Node) :=
  match splitkernels with
  | [] => Ok (oriented, kernel_list)
  | splitkernel :: rest =>
      let oriented := oriented || KernelInfo.oriented (kinfo splitkernel) in
      if decide (KernelInfo.subdomain_id (kinfo splitkernel) ≠ SubdomainName "otherwise")
      then Raise (NotImplementedError "Subdomains not implemented yet.")
      else
        let kast := visit (_ast (KernelInfo.kernel (kinfo splitkernel))) in
        finalize_loop rest oriented (kernel_list ++ [kast])
  end.

Definition _finalize_kernels_and_update (self : KernelBuilder)
    : result unit * KernelBuilder :=
  let oriented0 := oriented self in
  match context_kernels self with
  | (Raise e, self1) => (Raise e, self1)
  | (Ok cxt_kernels, self1) =>
      let splitkernels := cxt_kernels ≫= tsfc_kernels in
      match finalize_loop splitkernels oriented0 [] with
      | Raise e => (Raise e, self1)
      | Ok (oriented1, kernel_list) =>
          (Ok (),
           {| expression := expression self1;
              tsfc_parameters := tsfc_parameters self1;
              needs_cell_facets := needs_cell_facets self1;
              needs_mesh_layers := needs_mesh_layers self1;
              oriented := oriented1;
              finalized_ast := Some kernel_list;
              _is_finalized := true;
              temps := temps self1;
              aux_exprs := aux_exprs self1;
              cached_coefficient_map := cached_coefficient_map self1;
              cached_context_kernels := cached_context_kernels self1 |})
      end
  end.

End Builder.

(** What a caller can pass as [macro_kernels]: [PyList] stands for an
    instance of [list] with its items, the other constructors for values
    that are not instances of [list]. *)
Inductive PyValue : Type :=
| PyList (items : list Node)
| PyTuple (items : list Node)
| PyNone.

(** [isinstance(v, list)] *)
Definition isinstance_list (v : PyValue) : bool :=
  match v with PyList _ => true | _ => false end.

(** [construct_ast(macro_kernels)].  [kernel_ast] is the list object that
    [self.finalized_ast] refers to, so [kernel_ast.extend(macro_kernels)]
    extends the builder's list in place; the returned [ast.Node] holds the
    children as they are at the time of the call. *)
Definition construct_ast (macro_kernels : PyValue) (self : KernelBuilder)
    : result Node * KernelBuilder :=
  match macro_kernels with
  | PyList items =>
      if _is_finalized self then
        match finalized_ast self with
        | None =>
            (Raise (AttributeError "'NoneType' object has no attribute 'extend'"),
             self)
        | Some kernel_ast =>
            let kernel_ast := kernel_ast ++ items in
            (Ok (Root kernel_ast),
             {| expression := expression self;
                tsfc_parameters := tsfc_parameters self;
                needs_cell_facets := needs_cell_facets self;
                needs_mesh_layers := needs_mesh_layers self;
                oriented := oriented self;
                finalized_ast := Some kernel_ast;
                _is_finalized := _is_finalized self;
                temps := temps self;
                aux_exprs := aux_exprs self;
                cached_coefficient_map := cached_coefficient_map self;
                cached_context_kernels := cached_context_kernels self |})
        end
      else
        (Raise (AssertionError
                  "AST not finalized. Did you forget to call builder._finalize_kernels_and_update()?"),
         self)
  | _ =>
      (Raise (AssertionError "Please wrap all macro kernel functions in a list"),
       self)
  end.

(** The public operations of a builder, as calls with their arguments, and
    the state a call leaves behind, whether it returns or raises. *)
Inductive Call : Type :=
| call_integral_type
| call_require_cell_facets
| call_require_mesh_layers
| call_coefficient_map
| call_coefficient (c : Coefficient)
| call_context_kernels
| call_construct_macro_kernel (name : string) (args : list Node) (statements : Node)
| call_finalize
| call_construct_ast (macro_kernels : PyValue).

Definition run_call `{!Collaborators} (c : Call) (self : KernelBuilder)
    : KernelBuilder :=
  match c with
  | call_integral_type => self
  | call_require_cell_facets => require_cell_facets self
  | call_require_mesh_layers => require_mesh_layers self
  | call_coefficient_map => (coefficient_map self).2
  | call_coefficient c => (coefficient c self).2
  | call_context_kernels => (context_kernels self).2
  | call_construct_macro_kernel _ _ _ => self
  | call_finalize => (_finalize_kernels_and_update self).2
  | call_construct_ast macro_kernels => (construct_ast macro_kernels self).2
  end.

Definition run_calls `{!Collaborators} (cs : list Call) (self : KernelBuilder)
    : KernelBuilder :=
  foldl (λ s c, run_call c s) self cs.

(** ** Halo exchange ([firedrake/halo.py]) *)

(** The PyOP2 access descriptors that can be passed as [insert_mode]. *)
Inductive Access : Type := READ | WRITE | RW | INC | MIN | MAX.

#[global] Instance Access_eq_dec : EqDecision Access.
Proof. solve_decision. Defined.

(** An MPI datatype: a base type or [btype.Create_contiguous(cdim)]. *)
Inductive MPIType : Type :=
| BaseType (name : string)
| Contiguous (count : nat) (base : MPIType).

(** A [Dat]: the character of its [dtype], its [cdim] and its values,
    owned entries followed by ghost entries. *)
Record Dat : Type := {
  dtype : string;
  cdim : nat;
  data : list Z
}.

(** The calls into [firedrake.dmplex] that move data. *)
Inductive Exchange : Type :=
| halo_begin_call (sf : nat) (mtype : MPIType) (reverse : bool)
| halo_end_call (sf : nat) (mtype : MPIType) (reverse : bool).

(** What the halo calls and the sources at hand do not define: the type
    dictionary of mpi4py and the effect of [dmplex.halo_begin] and
    [dmplex.halo_end] on the values of a [Dat]. *)
Class Runtime : Type := {
  tdict : string → option MPIType;
  halo_begin : nat → Dat → MPIType → bool → Dat;
  halo_end : nat → Dat → MPIType → bool → Dat
}.

(** The state outside a [Halo] object: the module-level dictionary
    [_MPI_types] and the exchanges started or completed so far, latest
    first. *)
Record World : Type := {
  _MPI_types : gmap (string * nat) MPIType;
  exchanges : list Exchange
}.

(** A [Halo]: the size of its communicator, whether [sf.getType()] is
    [BASIC], and the pruned star forest. *)
Record Halo : Type := {
  comm_size : nat;
  sf_is_basic : bool;
  pruned_sf : nat
}.

(** The property [sf]. *)
Definition sf (self : Halo) : result nat :=
  if sf_is_basic self then Ok (pruned_sf self)
  else Raise (RuntimeError "Windowed SFs expose bugs in OpenMPI (use -sf_type basic)").

Section HaloOps.
Context `{!Runtime}.

Definition _get_mtype (dat : Dat) (w : World) : result MPIType * World :=
  let key := (dtype dat, cdim dat) in
  match _MPI_types w !! key with
  | Some typ => (Ok typ, w)
  | None =>
      match tdict (dtype dat) with
      | None => (Raise (RuntimeError "Unknown base type %r"), w)
      | Some btype =>
          let typ := if decide (cdim dat = 1) then btype
                     else Contiguous (cdim dat) btype in
          (Ok typ,
           {| _MPI_types := <[key := typ]> (_MPI_types w);
              exchanges := exchanges w |})
      end
  end.

Definition global_to_local_begin (self : Halo) (dat : Dat)
    (insert_mode : Access) (w : World) : result unit * Dat * World :=
  if decide (insert_mode = WRITE) then
    if decide (comm_size self = 1) then (Ok (), dat, w)
    else
      match _get_mtype dat w with
      | (Raise e, w1) => (Raise e, dat, w1)
      | (Ok mtype, w1) =>
          match sf self with
          | Raise e => (Raise e, dat, w1)
          | Ok s =>
              (Ok (), halo_begin s dat mtype false,
               {| _MPI_types := _MPI_types w1;
                  exchanges := halo_begin_call s mtype false :: exchanges w1 |})
          end
      end
  else (Raise (AssertionError "Only WRITE GtoL supported"), dat, w).

Definition global_to_local_end (self : Halo) (dat : Dat)
    (insert_mode : Access) (w : World) : result unit * Dat * World :=
  if decide (insert_mode = WRITE) then
    if decide (comm_size self = 1) then (Ok (), dat, w)
    else
      match _get_mtype dat w with
      | (Raise e, w1) => (Raise e, dat, w1)
      | (Ok mtype, w1) =>
          match sf self with
          | Raise e => (Raise e, dat, w1)
          | Ok s =>
              (Ok (), halo_end s dat mtype false,
               {| _MPI_types := _MPI_types w1;
                  exchanges := halo_end_call s mtype false :: exchanges w1 |})
          end
      end
  else (Raise (AssertionError "Only WRITE GtoL supported"), dat, w).

Definition local_to_global_begin (self : Halo) (dat : Dat)
    (insert_mode : Access) (w : World) : result unit * Dat * World :=
  if decide (insert_mode = INC) then
    if decide (comm_size self = 1) then (Ok (), dat, w)
    else
      match _get_mtype dat w with
      | (Raise e, w1) => (Raise e, dat, w1)
      | (Ok mtype, w1) =>
          match sf self with
          | Raise e => (Raise e, dat, w1)
          | Ok s =>
              (Ok (), halo_begin s dat mtype true,
               {| _MPI_types := _MPI_types w1;
                  exchanges := halo_begin_call s mtype true :: exchanges w1 |})
          end
      end
  else (Raise (AssertionError "Only INC LtoG supported"), dat, w).

Definition local_to_global_end (self : Halo) (dat : Dat)
    (insert_mode : Access) (w : World) : result unit * Dat * World :=
  if decide (insert_mode = INC) then
    if decide (comm_size self = 1) then (Ok (), dat, w)
    else
      match _get_mtype dat w with
      | (Raise e, w1) => (Raise e, dat, w1)
      | (Ok mtype, w1) =>
          match sf self with
          | Raise e => (Raise e, dat, w1)
          | Ok s =>
              (Ok (), halo_end s dat mtype true,
               {| _MPI_types := _MPI_types w1;
                  exchanges := halo_end_call s mtype true :: exchanges w1 |})
          end
      end
  else (Raise (AssertionError "Only INC LtoG supported"), dat, w).

End HaloOps.

(** The four halo operations and the insert mode each one supports. *)
Inductive HaloOp : Type := GtoL_begin | GtoL_end | LtoG_begin | LtoG_end.

Definition run_halo_op `{!Runtime} (op : HaloOp)
    : Halo → Dat → Access → World → result unit * Dat * World :=
  match op with
  | GtoL_begin => global_to_local_begin
  | GtoL_end => global_to_local_end
  | LtoG_begin => local_to_global_begin
  | LtoG_end => local_to_global_end
  end.

Definition supported_mode (op : HaloOp) : Access :=
  match op with
  | GtoL_begin | GtoL_end => WRITE
  | LtoG_begin | LtoG_end => INC
  end.

(** ** Concrete expressions, collaborators and halos *)

(** A terminal form compiler that gives every terminal one cell kernel on
    the default subdomain, and a rewriting pass that wraps a kernel in a
    block. *)
Definition cell_kernel (expr : TensorBase) (prefix : string)
    (o : bool) (sd : SubdomainId) : ContextKernel :=
  {| tensor := expr;
     original_integral_type := "cell";
     tsfc_kernels :=
       [ {| indices := [0; 0];
            kinfo := {| KernelInfo.kernel :=
                          {| _ast := Statement (prefix +:+ "cell_integral") |};
                        KernelInfo.integral_type := "cell";
                        KernelInfo.oriented := o;
                        KernelInfo.subdomain_id := sd |} |} ] |}.

Definition scalar_coefficient : Coefficient :=
  {| ufl_count := 3; ufl_element := FiniteElement; split := [3] |}.

Definition mixed_coefficient : Coefficient :=
  {| ufl_count := 7; ufl_element := MixedElement; split := [8; 9] |}.

Definition vector_coefficient : Coefficient :=
  {| ufl_count := 11; ufl_element := VectorElement; split := [12; 13; 14] |}.

Definition default_collaborators : Collaborators :=
  {| coefficients := λ _, [scalar_coefficient; mixed_coefficient; vector_coefficient];
     compile_terminal_form := λ expr prefix _,
       Ok [cell_kernel expr prefix true (SubdomainName "otherwise")];
     visit := λ n, Block [n] |}.

(** A terminal form compiler whose kernels are on subdomain 1. *)
Definition subdomain_collaborators : Collaborators :=
  {| coefficients := λ _, [];
     compile_terminal_form := λ expr prefix _,
       Ok [cell_kernel expr prefix true (SubdomainNumber 1)];
     visit := λ n, Block [n] |}.

(** The builder of the terminal tensor [A], and the builder after
    [_finalize_kernels_and_update]. *)
Definition fresh_builder : KernelBuilder :=
  {| expression := Tensor 0;
     tsfc_parameters := None;
     needs_cell_facets := false;
     needs_mesh_layers := false;
     oriented := false;
     finalized_ast := None;
     _is_finalized := false;
     temps := [(Tensor 0, {| symbol := "T0" |})];
     aux_exprs := [];
     cached_coefficient_map := None;
     cached_context_kernels := None |}.

Definition finalized_builder : KernelBuilder :=
  (@_finalize_kernels_and_update default_collaborators fresh_builder).2.

Definition macro_kernel : Node :=
  FunDecl "void" "compile_slate" [] (Block [Statement "T0.setZero();"])
          ["static"; "inline"].

(** [A + A] with one shared terminal [A], below an action and a transpose:
    node 2 is the sum, node 3 the action on it, node 4 a negation of the
    sum, node 5 the product of the two. *)
Definition shared_sum : TensorBase :=
  TensorOp 2 false [Tensor 0; Tensor 0].

Definition diamond : TensorBase :=
  TensorOp 5 false [TensorOp 3 true [shared_sum]; TensorOp 4 false [shared_sum]].

(** The identities of an expression built once more from new node objects. *)
Definition fresh_objects (i : nat) : nat := i + 10.

(** [A + A'] with two terminal objects. *)
Definition unshared_sum : TensorBase :=
  TensorOp 2 false [Tensor 0; Tensor 1].

(** A single-rank halo, a [Dat] and an MPI runtime. *)
Definition serial_halo : Halo :=
  {| comm_size := 1; sf_is_basic := true; pruned_sf := 0 |}.

Definition some_dat : Dat :=
  {| dtype := "d"; cdim := 2; data := [1; 2; 3]%Z |}.

Definition empty_world : World :=
  {| _MPI_types := ∅; exchanges := [] |}.

Definition mpi_runtime : Runtime :=
  {| tdict := λ c, if decide (c = "d") then Some (BaseType "MPI_DOUBLE") else None;
     halo_begin := λ _ dat _ _, dat;
     halo_end := λ _ dat _ _,
       {| dtype := dtype dat; cdim := cdim dat; data := 0%Z :: data dat |} |}.

(** ** Further vocabulary for the builder and the halo *)

(** The calls that set a requirement flag. *)
Definition is_require_cell_facets (c : Call) : bool :=
  match c with call_require_cell_facets => true | _ => false end.

Definition is_require_mesh_layers (c : Call) : bool :=
  match c with call_require_mesh_layers => true | _ => false end.

Definition is_finalize (c : Call) : bool :=
  match c with call_finalize => true | _ => false end.

(** The prefix [context_kernels] passes for the terminal at position [i],
    ["subkernel%d_" % i]. *)
Definition subkernel_prefix (i : nat) : string :=
  "subkernel" +:+ pretty i +:+ "_".

(** The AST [_finalize_kernels_and_update] stores for a subkernel, and the
    orientation flag it reads. *)
Definition rewritten_ast `{!Collaborators} (sk : SplitKernel) : Node :=
  visit (_ast (KernelInfo.kernel (kinfo sk))).

Definition needs_orientation (sk : SplitKernel) : bool :=
  KernelInfo.oriented (kinfo sk).

(** The character between the numbers of a name. *)
Definition underscore : Ascii.ascii :=
  match "_" : string with
  | String a _ => a
  | EmptyString => Ascii.zero
  end.

(** The characters of a string are decimal digits. *)
Fixpoint all_digits (s : string) : bool :=
  match s with
  | EmptyString => true
  | String a s' => bool_decide (is_Some (Ascii.is_nat a)) && all_digits s'
  end.

(** The MPI type [_get_mtype] builds for a base type and a [cdim]. *)
Definition derived_mtype (btype : MPIType) (cdim : nat) : MPIType :=
  if decide (cdim = 1) then btype else Contiguous cdim btype.

(** Every entry of [_MPI_types] is the type derived from the type
    dictionary for its key. *)
Definition cache_consistent `{!Runtime} (w : World) : Prop :=
  ∀ d c typ, _MPI_types w !! (d, c) = Some typ →
             ∃ btype, tdict d = Some btype ∧ typ = derived_mtype btype c.

(** The call into [dmplex] a halo operation makes on more than one rank. *)
Definition exchange_of (op : HaloOp) (s : nat) (mtype : MPIType) : Exchange :=
  match op with
  | GtoL_begin => halo_begin_call s mtype false
  | GtoL_end => halo_end_call s mtype false
  | LtoG_begin => halo_begin_call s mtype true
  | LtoG_end => halo_end_call s mtype true
  end.

(** A halo operation with its arguments, and the world a sequence of them
    leaves behind. *)
Record HaloCall : Type := {
  hc_op : HaloOp;
  hc_halo : Halo;
  hc_dat : Dat;
  hc_mode : Access
}.

Definition run_halo_call `{!Runtime} (w : World) (c : HaloCall) : World :=
  (run_halo_op (hc_op c) (hc_halo c) (hc_dat c) (hc_mode c) w).2.

Definition run_halo_calls `{!Runtime} (cs : list HaloCall) (w : World) : World :=
  foldl run_halo_call w cs.

(** A terminal form compiler that fails on the terminal with identity 1. *)
Definition failing_collaborators : Collaborators :=
  {| coefficients := λ _, [];
     compile_terminal_form := λ expr prefix _,
       if decide (node_id expr = 1)
       then Raise (CompilationError "unsupported element")
       else Ok [cell_kernel expr prefix false (SubdomainName "otherwise")];
     visit := λ n, Block [n] |}.

(** A halo on two ranks. *)
Definition parallel_halo : Halo :=
  {| comm_size := 2; sf_is_basic := true; pruned_sf := 0 |}.

(** What the call into [dmplex] returns for the values of the [Dat]. *)
Definition exchange_effect `{!Runtime} (op : HaloOp) (s : nat) (dat : Dat)
    (mtype : MPIType) : Dat :=
  match op with
  | GtoL_begin => halo_begin s dat mtype false
  | GtoL_end => halo_end s dat mtype false
  | LtoG_begin => halo_begin s dat mtype true
  | LtoG_end => halo_end s dat mtype true
  end.

(** The operation that begins, and the one that ends, an exchange in the
    direction given by [reverse]. *)
Definition begin_op (reverse : bool) : HaloOp :=
  if reverse then LtoG_begin else GtoL_begin.

Definition end_op (reverse : bool) : HaloOp :=
  if reverse then LtoG_end else GtoL_end.

(** A halo whose star forest is not of type [BASIC]. *)
Definition windowed_halo : Halo :=
  {| comm_size := 2; sf_is_basic := false; pruned_sf := 0 |}.

(* ===================================================================== *)
(** * Part II: lemmas and theorems                                        *)
(* ===================================================================== *)

(** ** Halo exchange on one rank *)

(** C8, as stated, fails: on a communicator of size 1,
    [global_to_local_begin] with insert mode [INC] does not return; the
    assertion on the insert mode comes before the test of the size. *)
Lemma serial_halo_rejects_unsupported_mode :
  comm_size serial_halo = 1 ∧
  @global_to_local_begin mpi_runtime serial_halo some_dat INC empty_world
  = (Raise (AssertionError "Only WRITE GtoL supported"), some_dat, empty_world).
Proof. split; reflexivity. Qed.

(** C8, amended: on a communicator of size 1 each of the four halo
    operations, called with the insert mode its direction supports ([WRITE]
    for global-to-local, [INC] for local-to-global), returns with the [Dat]
    and the world (type cache and exchanges) unchanged; with any other
    insert mode it raises the assertion failure, again with the [Dat] and
    the world unchanged. *)
Theorem serial_halo_noop `{!Runtime} (op : HaloOp) (self : Halo) (dat : Dat)
    (insert_mode : Access) (w : World) :
  comm_size self = 1 →
  (insert_mode = supported_mode op →
   run_halo_op op self dat insert_mode w = (Ok (), dat, w)) ∧
  (insert_mode ≠ supported_mode op →
   ∃ msg, run_halo_op op self dat insert_mode w
          = (Raise (AssertionError msg), dat, w)).
Proof.
  intros Hsize. split.
  - intros ->.
    destruct op; simpl;
      unfold global_to_local_begin, global_to_local_end,
             local_to_global_begin, local_to_global_end;
      rewrite Hsize; reflexivity.
  - intros Hmode.
    destruct op; simpl in *;
      unfold global_to_local_begin, global_to_local_end,
             local_to_global_begin, local_to_global_end;
      (destruct (decide _) as [Heq|_]; [contradiction | eexists; reflexivity]).
Qed.

(** On two ranks the same call starts an exchange and records the MPI
    type of the [Dat]. *)
Example parallel_halo_exchanges :
  @global_to_local_begin mpi_runtime
    {| comm_size := 2; sf_is_basic := true; pruned_sf := 0 |}
    some_dat WRITE empty_world
  = (Ok (), some_dat,
     {| _MPI_types := {[ ("d", 2) := Contiguous 2 (BaseType "MPI_DOUBLE") ]};
        exchanges := [halo_begin_call 0 (Contiguous 2 (BaseType "MPI_DOUBLE")) false] |}).
Proof. reflexivity. Qed.

Lemma serial_halo_noop_witness :
  @run_halo_op mpi_runtime GtoL_end serial_halo some_dat WRITE empty_world
  = (Ok (), some_dat, empty_world).
Proof.
  apply (@serial_halo_noop mpi_runtime GtoL_end serial_halo some_dat WRITE
                           empty_world);
    reflexivity.
Defined.

(** ** The builder's methods, one call at a time *)

(** Destructs every [match] and [if] a method's body goes through. *)
Ltac run_method :=
  repeat (simpl in *; try case_match; simplify_eq); simpl; auto.

Lemma coefficient_map_frame `{!Collaborators} (self : KernelBuilder) :
  let self' := (coefficient_map self).2 in
  temps self' = temps self ∧ aux_exprs self' = aux_exprs self ∧
  oriented self' = oriented self ∧ finalized_ast self' = finalized_ast self ∧
  _is_finalized self' = _is_finalized self ∧
  cached_context_kernels self' = cached_context_kernels self.
Proof.
  unfold coefficient_map.
  destruct (cached_coefficient_map self); simpl; repeat split; reflexivity.
Qed.

Lemma context_kernels_frame `{!Collaborators} (self : KernelBuilder) :
  let self' := (context_kernels self).2 in
  temps self' = temps self ∧ aux_exprs self' = aux_exprs self ∧
  oriented self' = oriented self ∧ finalized_ast self' = finalized_ast self ∧
  _is_finalized self' = _is_finalized self ∧
  needs_cell_facets self' = needs_cell_facets self ∧
  needs_mesh_layers self' = needs_mesh_layers self ∧
  expression self' = expression self ∧
  tsfc_parameters self' = tsfc_parameters self ∧
  cached_coefficient_map self' = cached_coefficient_map self.
Proof.
  unfold context_kernels.
  destruct (cached_context_kernels self); simpl; [repeat split; reflexivity|].
  destruct (compile_terminals _ _ _); simpl; repeat split; reflexivity.
Qed.

(** Once [context_kernels] has returned, every later access returns the
    stored list and changes nothing. *)
Lemma context_kernels_memo `{!Collaborators} (self self1 : KernelBuilder) ks :
  context_kernels self = (Ok ks, self1) →
  context_kernels self1 = (Ok ks, self1).
Proof. unfold context_kernels. intros Hck. run_method. Qed.

Lemma context_kernels_raise `{!Collaborators} (self self1 : KernelBuilder) e :
  context_kernels self = (Raise e, self1) → self1 = self.
Proof. unfold context_kernels. intros Hck. run_method. Qed.

(** What the loop of [_finalize_kernels_and_update] computes. *)
Lemma finalize_loop_spec `{!Collaborators} (sks : list SplitKernel) o kl :
  finalize_loop sks o kl =
  if forallb default_subdomain sks
  then Ok (o || existsb (λ sk, KernelInfo.oriented (kinfo sk)) sks,
           kl ++ ((λ sk, visit (_ast (KernelInfo.kernel (kinfo sk)))) <$> sks))
  else Raise (NotImplementedError "Subdomains not implemented yet.").
Proof.
  revert o kl. induction sks as [|sk sks IH]; intros o kl; simpl.
  - by rewrite orb_false_r, app_nil_r.
  - unfold default_subdomain at 1.
    destruct (decide (KernelInfo.subdomain_id (kinfo sk) ≠ _)) as [Hne|Heq].
    + by rewrite bool_decide_eq_false_2.
    + apply dec_stable in Heq. rewrite bool_decide_eq_true_2 by done. simpl.
      rewrite IH. destruct (forallb _ sks); [|done].
      by rewrite orb_assoc, <-app_assoc.
Qed.

Lemma construct_ast_extends (self : KernelBuilder) (l items : list Node) :
  _is_finalized self = true →
  finalized_ast self = Some l →
  (construct_ast (PyList items) self).1 = Ok (Root (l ++ items)) ∧
  finalized_ast (construct_ast (PyList items) self).2 = Some (l ++ items) ∧
  _is_finalized (construct_ast (PyList items) self).2 = true.
Proof. intros Hf Hl. unfold construct_ast. rewrite Hf, Hl. simpl. auto. Qed.

(** A second call with the same list finds the first call's macro kernels
    in the builder's list. *)
Lemma construct_ast_twice (self : KernelBuilder) (l items : list Node) :
  _is_finalized self = true →
  finalized_ast self = Some l →
  (construct_ast (PyList items)
     (construct_ast (PyList items) self).2).1
  = Ok (Root (l ++ items ++ items)).
Proof.
  intros Hf Hl.
  destruct (construct_ast_extends self l items Hf Hl) as (_ & Hl1 & Hf1).
  destruct (construct_ast_extends _ _ items Hf1 Hl1) as (-> & _).
  by rewrite <-app_assoc.
Qed.

Lemma run_call_frame `{!Collaborators} (c : Call) (self : KernelBuilder) :
  temps (run_call c self) = temps self ∧
  aux_exprs (run_call c self) = aux_exprs self.
Proof.
  destruct c; simpl; auto.
  - destruct (coefficient_map_frame self) as (?&?&_). auto.
  - unfold coefficient.
    pose proof (coefficient_map_frame self) as Hm.
    destruct (coefficient_map self) as [m self']. simpl in Hm.
    destruct (od_get m c); simpl; tauto.
  - destruct (context_kernels_frame self) as (?&?&_). auto.
  - unfold _finalize_kernels_and_update.
    pose proof (context_kernels_frame self) as Hk.
    destruct (context_kernels self) as [[ks|e] self1]; simpl in *; [|tauto].
    destruct (finalize_loop _ _ _) as [[o kl]|e]; simpl; tauto.
  - unfold construct_ast. run_method.
Qed.

Lemma context_kernels_cached `{!Collaborators} (self self1 : KernelBuilder) ks :
  context_kernels self = (Ok ks, self1) →
  cached_context_kernels self1 = Some ks.
Proof. unfold context_kernels. intros Hck. run_method. Qed.

(** ** [construct_ast] *)

(** C1: on a finalized builder the second call of [construct_ast] with the
    same macro kernels does not give the content of the first call.  The
    builder of the terminal tensor [A] is finalized, its finalized list
    holds the one rewritten subkernel; the first call returns the subkernel
    followed by the macro kernel and leaves the macro kernel in the
    builder's own list, so the second call returns the macro kernel
    twice. *)
Theorem construct_ast_second_call_repeats_macro_kernels :
  let subkernel := Block [Statement "subkernel0_cell_integral"] in
  let first := construct_ast (PyList [macro_kernel]) finalized_builder in
  let second := construct_ast (PyList [macro_kernel]) first.2 in
  _is_finalized finalized_builder = true ∧
  finalized_ast finalized_builder = Some [subkernel] ∧
  first.1 = Ok (Root [subkernel; macro_kernel]) ∧
  finalized_ast first.2 = Some [subkernel; macro_kernel] ∧
  second.1 = Ok (Root [subkernel; macro_kernel; macro_kernel]).
Proof. repeat split; reflexivity. Qed.

(** C9: on a finalized builder [construct_ast] rejects an argument that is
    not a list (a tuple of macro kernels, [None]) with the assertion
    failure that asks for a list, before anything is produced and with the
    builder as it was; a list is accepted. *)
Theorem construct_ast_requires_list (macro_kernels : PyValue)
    (self : KernelBuilder) (l : list Node) :
  _is_finalized self = true →
  finalized_ast self = Some l →
  (isinstance_list macro_kernels = false →
   construct_ast macro_kernels self
   = (Raise (AssertionError "Please wrap all macro kernel functions in a list"),
      self)) ∧
  (∀ items, macro_kernels = PyList items →
            (construct_ast macro_kernels self).1 = Ok (Root (l ++ items))).
Proof.
  intros Hf Hl. split.
  - intros Hnl. destruct macro_kernels; simpl in *; done.
  - intros items ->. by apply construct_ast_extends.
Qed.

Lemma construct_ast_requires_list_witness :
  construct_ast (PyTuple [macro_kernel]) finalized_builder
  = (Raise (AssertionError "Please wrap all macro kernel functions in a list"),
     finalized_builder).
Proof.
  apply (construct_ast_requires_list (PyTuple [macro_kernel]) finalized_builder
           [Block [Statement "subkernel0_cell_integral"]]);
    reflexivity.
Defined.

(** ** [_finalize_kernels_and_update] *)

(** C4: when the context kernels hold a subkernel whose subdomain
    identifier is not ["otherwise"], [_finalize_kernels_and_update] raises
    [NotImplementedError]; the builder it leaves behind is the builder as
    it was once [context_kernels] had been read: [finalized_ast],
    [_is_finalized] and [oriented] have the values they had before the
    call, so on a builder that was never finalized the finalized AST is
    still [None] and [_is_finalized] still [False]. *)
Theorem finalize_rejects_subdomain `{!Collaborators}
    (self self1 : KernelBuilder) (cxt_kernels : list ContextKernel)
    (sk : SplitKernel) :
  context_kernels self = (Ok cxt_kernels, self1) →
  sk ∈ cxt_kernels ≫= tsfc_kernels →
  KernelInfo.subdomain_id (kinfo sk) ≠ SubdomainName "otherwise" →
  _finalize_kernels_and_update self
  = (Raise (NotImplementedError "Subdomains not implemented yet."), self1) ∧
  finalized_ast self1 = finalized_ast self ∧
  _is_finalized self1 = _is_finalized self ∧
  oriented self1 = oriented self.
Proof.
  intros Hck Hin Hsd.
  pose proof (context_kernels_frame self) as Hframe.
  unfold _finalize_kernels_and_update. rewrite Hck in *. simpl in Hframe.
  rewrite finalize_loop_spec.
  destruct (forallb default_subdomain (cxt_kernels ≫= tsfc_kernels)) eqn:Hall.
  - rewrite forallb_forall in Hall.
    apply list_elem_of_In, Hall in Hin.
    unfold default_subdomain in Hin. by apply bool_decide_eq_true_1 in Hin.
  - destruct_and!. done.
Qed.

Lemma finalize_rejects_subdomain_witness :
  @_finalize_kernels_and_update subdomain_collaborators fresh_builder
  = (Raise (NotImplementedError "Subdomains not implemented yet."),
     (@context_kernels subdomain_collaborators fresh_builder).2) ∧
  finalized_ast (@context_kernels subdomain_collaborators fresh_builder).2 = None ∧
  _is_finalized (@context_kernels subdomain_collaborators fresh_builder).2 = false ∧
  oriented (@context_kernels subdomain_collaborators fresh_builder).2 = false.
Proof.
  apply (@finalize_rejects_subdomain subdomain_collaborators fresh_builder _
           [cell_kernel (Tensor 0) "subkernel0_" true (SubdomainNumber 1)]
           {| indices := [0; 0];
              kinfo := {| KernelInfo.kernel :=
                            {| _ast := Statement "subkernel0_cell_integral" |};
                          KernelInfo.integral_type := "cell";
                          KernelInfo.oriented := true;
                          KernelInfo.subdomain_id := SubdomainNumber 1 |} |}).
  - reflexivity.
  - apply list_elem_of_here.
  - discriminate.
Defined.

(** C6: a second call of [_finalize_kernels_and_update] returns what the
    first call returned and leaves the builder exactly as the first call
    left it: the finalized subkernel list has the same content, neither
    longer nor different, and the orientation flag the same value. *)
Theorem finalize_twice `{!Collaborators} (self : KernelBuilder) :
  let first := _finalize_kernels_and_update self in
  let second := _finalize_kernels_and_update first.2 in
  second.1 = first.1 ∧
  finalized_ast second.2 = finalized_ast first.2 ∧
  oriented second.2 = oriented first.2 ∧
  second.2 = first.2.
Proof.
  simpl.
  assert (_finalize_kernels_and_update (_finalize_kernels_and_update self).2
          = _finalize_kernels_and_update self) as Heq; [|by rewrite Heq].
  unfold _finalize_kernels_and_update at 2 3.
  destruct (context_kernels self) as [[ks|e] self1] eqn:Hck.
  - pose proof (context_kernels_memo _ _ _ Hck) as Hmemo.
    pose proof (context_kernels_cached _ _ _ Hck) as Hcached.
    pose proof (context_kernels_frame self) as Hframe.
    rewrite Hck in Hframe. simpl in Hframe. destruct Hframe as (_&_&Ho&_).
    rewrite finalize_loop_spec.
    destruct (forallb default_subdomain (ks ≫= tsfc_kernels)) eqn:Hall; simpl.
    + unfold _finalize_kernels_and_update, context_kernels. simpl.
      rewrite Hcached. rewrite finalize_loop_spec, Hall. simpl.
      by rewrite <-orb_assoc, orb_diag.
    + unfold _finalize_kernels_and_update. rewrite Hmemo.
      by rewrite finalize_loop_spec, Hall.
  - simpl. apply context_kernels_raise in Hck as Hself. subst self1.
    unfold _finalize_kernels_and_update. by rewrite Hck.
Qed.

(** ** The lifetime of [temps] and [aux_exprs] *)

(** C10: whatever public operations are called on a builder, in whatever
    order and with whatever arguments, and whether they return or raise,
    [temps] and [aux_exprs] keep their content and order. *)
Theorem temps_and_aux_exprs_never_change `{!Collaborators} (cs : list Call)
    (self : KernelBuilder) :
  temps (run_calls cs self) = temps self ∧
  aux_exprs (run_calls cs self) = aux_exprs self.
Proof.
  revert self. induction cs as [|c cs IH]; intros self; simpl; [done|].
  destruct (IH (run_call c self)) as [Ht Ha].
  destruct (run_call_frame c self) as [Ht' Ha'].
  unfold run_calls in *. split; congruence.
Qed.

(** ** [coefficient_map] *)

Lemma od_set_fresh (m : CoefficientMap) (c : Coefficient) (v : list Symbol) :
  ufl_count c ∉ (ufl_count ∘ fst) <$> m →
  od_set m c v = m ++ [(c, v)].
Proof.
  induction m as [|[c' v'] m IH]; simpl; intros Hfresh; [done|].
  rewrite not_elem_of_cons in Hfresh. destruct Hfresh as [Hne Hfresh].
  rewrite decide_False by done. by rewrite IH.
Qed.

Lemma od_get_app_fresh (m m' : CoefficientMap) (c : Coefficient) :
  ufl_count c ∉ (ufl_count ∘ fst) <$> m →
  od_get (m ++ m') c = od_get m' c.
Proof.
  induction m as [|[c' v'] m IH]; simpl; intros Hfresh; [done|].
  rewrite not_elem_of_cons in Hfresh. destruct Hfresh as [Hne Hfresh].
  rewrite decide_False by done. by apply IH.
Qed.

(** With coefficients that are pairwise distinct, the loop appends one
    entry per coefficient, in order. *)
Lemma fill_coefficient_map_distinct (cs : list Coefficient) (i : nat)
    (m : CoefficientMap) :
  NoDup (((ufl_count ∘ fst) <$> m) ++ (ufl_count <$> cs)) →
  fill_coefficient_map i cs m
  = m ++ imap (λ j c, (c, csym_info (i + j) c)) cs.
Proof.
  revert i m. induction cs as [|c cs IH]; intros i m Hnd; simpl.
  - by rewrite app_nil_r.
  - rewrite od_set_fresh.
    2:{ apply NoDup_app in Hnd as (_ & Hdisj & _).
        intros Hin. apply (Hdisj _ Hin). left. }
    rewrite IH.
    + rewrite <-app_assoc. simpl. rewrite Nat.add_0_r.
      do 2 f_equal. apply imap_ext. intros j x _. simpl.
      by rewrite Nat.add_succ_r.
    + rewrite fmap_app. simpl. by rewrite <-app_assoc.
Qed.

Lemma od_get_imap (g : nat → Coefficient → list Symbol) (cs : list Coefficient)
    (i : nat) (c : Coefficient) :
  NoDup (ufl_count <$> cs) →
  cs !! i = Some c →
  od_get (imap (λ j c, (c, g j c)) cs) c = Some (g i c).
Proof.
  revert g i. induction cs as [|c' cs IH]; intros g i Hnd Hi; [done|].
  simpl in Hnd. apply NoDup_cons in Hnd as [Hnotin Hnd].
  destruct i as [|i]; simpl in *.
  - simplify_eq. by rewrite decide_True.
  - rewrite decide_False.
    + apply (IH (g ∘ S) i Hnd Hi).
    + intros Heq. apply Hnotin. rewrite Heq.
      apply list_elem_of_fmap. exists c. split; [done|].
      by eapply list_elem_of_lookup_2.
Qed.

Lemma imap_const_seq {A B : Type} (f : nat → B) (l : list A) :
  imap (λ j _, f j) l = f <$> seq 0 (length l).
Proof.
  revert f. induction l as [|x l IH]; intros f; simpl; [done|].
  f_equal. rewrite <-fmap_S_seq, <-list_fmap_compose. apply (IH (f ∘ S)).
Qed.

Lemma imap_fst {A B : Type} (g : nat → A → B) (l : list A) :
  (imap (λ j c, (c, g j c)) l).*1 = l.
Proof.
  revert g. induction l as [|x l IH]; intros g; simpl; [done|].
  f_equal. apply (IH (g ∘ S)).
Qed.

(** C7: at the first access of [coefficient_map], with the coefficients of
    the expression pairwise distinct, the coefficient at position [i] is
    mapped to the [N] symbols [w_i_0] ... [w_i_(N-1)] when its element is a
    [MixedElement] and [split] gives [N] parts, and to the one symbol [w_i]
    otherwise; the mapping has one entry per coefficient, in their order.
    Every later access returns that same mapping and leaves the builder
    as it is, whatever the coefficients of the expression would then be:
    nothing is computed again. *)
Theorem coefficient_map_symbols `{!Collaborators} (self : KernelBuilder) :
  cached_coefficient_map self = None →
  NoDup (ufl_count <$> coefficients (expression self)) →
  let m := (coefficient_map self).1 in
  let self1 := (coefficient_map self).2 in
  (∀ i c, coefficients (expression self) !! i = Some c →
     od_get m c
     = Some (if decide (ufl_element c = MixedElement)
             then (λ j, {| symbol := "w_" +:+ pretty i +:+ "_" +:+ pretty j |})
                    <$> seq 0 (length (split c))
             else [ {| symbol := "w_" +:+ pretty i |} ])) ∧
  m.*1 = coefficients (expression self) ∧
  (∀ C' : Collaborators, @coefficient_map C' self1 = (m, self1)).
Proof.
  intros Hnone Hnd. unfold coefficient_map at 1 2 3. rewrite Hnone. simpl.
  rewrite fill_coefficient_map_distinct by done. simpl.
  split; [|split].
  - intros i c Hi.
    rewrite (od_get_imap (λ j c, csym_info j c) _ i c Hnd Hi).
    unfold csym_info. destruct (decide _); [|done].
    by rewrite imap_const_seq.
  - apply imap_fst.
  - intros C'. unfold coefficient_map. simpl. done.
Qed.

Lemma coefficient_map_symbols_witness :
  od_get (@coefficient_map default_collaborators fresh_builder).1 mixed_coefficient
  = Some [ {| symbol := "w_1_0" |}; {| symbol := "w_1_1" |} ] ∧
  od_get (@coefficient_map default_collaborators fresh_builder).1 vector_coefficient
  = Some [ {| symbol := "w_2" |} ] ∧
  @coefficient_map subdomain_collaborators
    (@coefficient_map default_collaborators fresh_builder).2
  = @coefficient_map default_collaborators fresh_builder.
Proof.
  assert (NoDup (ufl_count <$> @coefficients default_collaborators
                                 (expression fresh_builder))) as Hnd.
  { apply (bool_decide_unpack _). vm_compute. exact I. }
  destruct (@coefficient_map_symbols default_collaborators fresh_builder
              eq_refl Hnd) as (Hget & _ & Hmemo).
  split; [|split].
  - apply (Hget 1 mixed_coefficient eq_refl).
  - apply (Hget 2 vector_coefficient eq_refl).
  - apply (Hmemo subdomain_collaborators).
Defined.

(** ** Expression graphs *)

(** Induction over an expression and its operands. *)
Lemma TensorBase_nested_ind (P : TensorBase → Prop) :
  (∀ i, P (Tensor i)) →
  (∀ i a ops, Forall P ops → P (TensorOp i a ops)) →
  ∀ t, P t.
Proof.
  intros Hleaf Hop. fix IH 1. intros [i|i a ops].
  - apply Hleaf.
  - apply Hop. induction ops as [|o ops IHops]; constructor; [apply IH|exact IHops].
Qed.

Lemma subterms_self (t : TensorBase) : t ∈ subterms t.
Proof. destruct t; simpl; apply list_elem_of_here. Qed.

Lemma subterms_unfold (t s : TensorBase) :
  s ∈ subterms t ↔ s = t ∨ ∃ o, o ∈ operands t ∧ s ∈ subterms o.
Proof.
  destruct t as [i|i a ops]; simpl.
  - rewrite elem_of_cons, elem_of_nil. split; [intros [->|[]]; by left|].
    intros [->|(o & Ho & _)]; [by left|]. by apply elem_of_nil in Ho.
  - rewrite elem_of_cons, list_elem_of_bind. split.
    + intros [->|(o & Hs & Ho)]; [by left|right; eauto].
    + intros [->|(o & Ho & Hs)]; [by left|right; eauto].
Qed.

Lemma subterms_operand (t o : TensorBase) : o ∈ operands t → o ∈ subterms t.
Proof.
  intros Ho. apply subterms_unfold. right. exists o. split; [done|].
  apply subterms_self.
Qed.

Lemma subterms_trans (a b c : TensorBase) :
  a ∈ subterms b → b ∈ subterms c → a ∈ subterms c.
Proof.
  intros Hab. revert c. induction c as [i|i act ops IH] using TensorBase_nested_ind.
  - intros Hb. apply subterms_unfold in Hb as [->|(o & Ho & _)]; [done|].
    by apply elem_of_nil in Ho.
  - intros Hb. apply subterms_unfold in Hb as [->|(o & Ho & Hb)]; [done|].
    apply subterms_unfold. right. exists o. split; [done|].
    rewrite Forall_forall in IH. by apply IH.
Qed.

Lemma tensor_size_unfold (t : TensorBase) :
  tensor_size t = S (sum_list (tensor_size <$> operands t)).
Proof. by destruct t. Qed.

Lemma node_ids_spec (t : TensorBase) (i : nat) :
  i ∈ node_ids t ↔ ∃ s, s ∈ subterms t ∧ node_id s = i.
Proof.
  unfold node_ids. rewrite elem_of_list_to_set, list_elem_of_fmap.
  naive_solver.
Qed.

Lemma node_ids_self (t : TensorBase) : node_id t ∈ node_ids t.
Proof. apply node_ids_spec. exists t. split; [apply subterms_self|done]. Qed.

Lemma node_ids_operand (t o : TensorBase) :
  o ∈ operands t → node_ids o ⊆ node_ids t.
Proof.
  intros Ho i. rewrite !node_ids_spec. intros (s & Hs & <-).
  exists s. split; [|done].
  eapply subterms_trans; [exact Hs|]. by apply subterms_operand.
Qed.

Lemma sum_sizes_cons (t : TensorBase) (l : list TensorBase) :
  sum_list (tensor_size <$> t :: l)
  = tensor_size t + sum_list (tensor_size <$> l).
Proof. reflexivity. Qed.

(** ** The traversal *)

(** What [push_unseen] does: the stack grows by operands that had not been
    seen, each once, and every operand is seen afterwards. *)
Lemma push_unseen_spec (ops : list TensorBase) (seen : gset nat)
    (container : list TensorBase) :
  ∃ new,
    push_unseen ops seen container
    = (list_to_set (node_id <$> new) ∪ seen, new ++ container) ∧
    NoDup (node_id <$> new) ∧
    (∀ x, x ∈ new → x ∈ ops ∧ node_id x ∉ seen) ∧
    (∀ o, o ∈ ops → node_id o ∈ (list_to_set (node_id <$> new) ∪ seen : gset nat)) ∧
    sum_list (tensor_size <$> new) ≤ sum_list (tensor_size <$> ops).
Proof.
  revert seen container.
  induction ops as [|o ops IH]; intros seen container; cbn [push_unseen].
  - exists []. simpl. split_and!; try done.
    + by rewrite (left_id_L ∅ (∪)).
    + apply NoDup_nil_2.
    + intros x Hx. by apply elem_of_nil in Hx.
    + intros x Hx. by apply elem_of_nil in Hx.
  - destruct (decide (node_id o ∈ seen)) as [Hseen|Hnew].
    + destruct (IH seen container) as (new & Heq & Hnd & Hnew & Hall & Hsize).
      exists new. split_and!; try done.
      * intros x Hx. destruct (Hnew x Hx). split; [by right|done].
      * intros x [->|Hx]%elem_of_cons; [set_solver|by apply Hall].
      * rewrite sum_sizes_cons. lia.
    + destruct (IH ({[node_id o]} ∪ seen) (o :: container))
        as (new & Heq & Hnd & Hnew' & Hall & Hsize).
      exists (new ++ [o]). split_and!.
      * rewrite Heq. f_equal.
        -- rewrite fmap_app, list_to_set_app_L. simpl. set_solver.
        -- by rewrite <-app_assoc.
      * rewrite fmap_app. apply NoDup_app. split_and!; [done| |].
        -- intros i Hi Hi'. simpl in Hi'. apply list_elem_of_singleton in Hi'.
           subst i. apply list_elem_of_fmap in Hi as (x & Hid & Hx).
           destruct (Hnew' x Hx) as [_ Hfresh]. rewrite <-Hid in Hfresh.
           set_solver.
        -- simpl. apply NoDup_singleton.
      * intros x [Hx| ->%list_elem_of_singleton]%elem_of_app.
        -- destruct (Hnew' x Hx). split; [by right|set_solver].
        -- split; [by left|done].
      * intros x Hx. rewrite fmap_app, list_to_set_app_L. simpl.
        apply elem_of_cons in Hx as [->|Hx]; [set_solver|].
        specialize (Hall x Hx). set_solver.
      * rewrite fmap_app, sum_list_with_app, !sum_sizes_cons.
        rewrite fmap_nil. cbn [sum_list sum_list_with]. lia.
Qed.

Lemma traverse_loop_nodup (fuel : nat) (seen : gset nat) (container : list TensorBase) :
  NoDup (node_id <$> container) →
  (∀ x, x ∈ container → node_id x ∈ seen) →
  NoDup (node_id <$> traverse_loop fuel seen container) ∧
  (∀ x, x ∈ traverse_loop fuel seen container →
        node_id x ∈ node_id <$> container ∨ node_id x ∉ seen).
Proof.
  revert seen container.
  induction fuel as [|fuel IH]; intros seen [|t rest] Hnd Hseen;
    cbn [traverse_loop]; try (split; [apply NoDup_nil_2|by intros x ?%elem_of_nil]).
  destruct (push_unseen_spec (operands t) seen rest)
    as (new & -> & Hnew_nd & Hnew & _ & _).
  rewrite fmap_cons in Hnd. apply NoDup_cons in Hnd as [Ht Hrest].
  destruct (IH (list_to_set (node_id <$> new) ∪ seen) (new ++ rest)) as [IHnd IHin].
  { rewrite fmap_app. apply NoDup_app. split_and!; [done| |done].
    intros i (x & -> & Hx)%list_elem_of_fmap (y & Hxy & Hy)%list_elem_of_fmap.
    destruct (Hnew x Hx) as [_ Hfresh]. apply Hfresh. rewrite Hxy.
    apply Hseen. by right. }
  { intros x [Hx|Hx]%elem_of_app.
    - apply elem_of_union_l, elem_of_list_to_set, list_elem_of_fmap. eauto.
    - apply elem_of_union_r, Hseen. by right. }
  assert (node_id t ∈ seen) as Htseen by (apply Hseen; left).
  split.
  - rewrite fmap_cons. apply NoDup_cons. split; [|done].
    intros (x & Hid & Hx)%list_elem_of_fmap.
    destruct (IHin x Hx) as [Hin|Hout].
    + rewrite <-Hid, fmap_app in Hin. apply elem_of_app in Hin as [Hin|Hin]; [|done].
      apply list_elem_of_fmap in Hin as (y & Hty & Hy).
      destruct (Hnew y Hy) as [_ Hfresh]. by rewrite <-Hty in Hfresh.
    + apply Hout. rewrite <-Hid. by apply elem_of_union_r.
  - intros x [->|Hx]%elem_of_cons; [left; rewrite fmap_cons; left|].
    destruct (IHin x Hx) as [Hin|Hout].
    + rewrite fmap_app in Hin. apply elem_of_app in Hin as [Hin|Hin].
      * right. apply list_elem_of_fmap in Hin as (y & Hxy & Hy).
        destruct (Hnew y Hy) as [_ Hfresh]. by rewrite Hxy.
      * left. rewrite fmap_cons. by right.
    + right. intros Hs. apply Hout. by apply elem_of_union_r.
Qed.

Lemma tensor_size_pos (t : TensorBase) : 0 < tensor_size t.
Proof. rewrite tensor_size_unfold. lia. Qed.

Lemma traverse_loop_complete (fuel : nat) (seen : gset nat) (container : list TensorBase) :
  sum_list (tensor_size <$> container) ≤ fuel →
  (∀ x, x ∈ container → x ∈ traverse_loop fuel seen container) ∧
  (∀ x o, x ∈ traverse_loop fuel seen container → o ∈ operands x →
      node_id o ∈ seen ∨ node_id o ∈ node_id <$> traverse_loop fuel seen container) ∧
  (∀ x, x ∈ traverse_loop fuel seen container →
      ∃ y, y ∈ container ∧ x ∈ subterms y).
Proof.
  revert seen container.
  induction fuel as [|fuel IH]; intros seen [|t rest] Hfuel; cbn [traverse_loop];
    try (split_and!; [by intros x ?%elem_of_nil|by intros x o ?%elem_of_nil
                     |by intros x ?%elem_of_nil]).
  { rewrite sum_sizes_cons in Hfuel. pose proof (tensor_size_pos t). lia. }
  destruct (push_unseen_spec (operands t) seen rest)
    as (new & -> & _ & Hnew & Hall & Hsize).
  rewrite sum_sizes_cons, tensor_size_unfold in Hfuel.
  destruct (IH (list_to_set (node_id <$> new) ∪ seen) (new ++ rest))
    as (IHa & IHb & IHc).
  { rewrite fmap_app, sum_list_with_app. lia. }
  assert (∀ o, node_id o ∈ (list_to_set (node_id <$> new) ∪ seen : gset nat) →
            node_id o ∈ seen ∨
            node_id o ∈ node_id <$>
              t :: traverse_loop fuel (list_to_set (node_id <$> new) ∪ seen) (new ++ rest))
    as Hstep.
  { intros o [Ho|Ho]%elem_of_union; [|by left]. right.
    apply elem_of_list_to_set, list_elem_of_fmap in Ho as (y & Hoy & Hy).
    rewrite Hoy, fmap_cons. right. apply list_elem_of_fmap_2, IHa, elem_of_app. by left. }
  split_and!.
  - intros x [->|Hx]%elem_of_cons; [by left|].
    right. apply IHa, elem_of_app. by right.
  - intros x o [->|Hx]%elem_of_cons Ho.
    + by apply Hstep, Hall.
    + destruct (IHb x o Hx Ho) as [Hs|Hr]; [by apply Hstep|].
      right. rewrite fmap_cons. by right.
  - intros x [->|Hx]%elem_of_cons.
    + exists t. split; [by left|apply subterms_self].
    + destruct (IHc x Hx) as (y & [Hy|Hy]%elem_of_app & Hxy).
      * exists t. split; [by left|].
        eapply subterms_trans; [exact Hxy|].
        apply subterms_operand. by apply Hnew.
      * exists y. split; [by right|done].
Qed.

Lemma traverse_dags_single (expr : TensorBase) :
  traverse_dags [expr]
  = traverse_loop (sum_list (tensor_size <$> [expr])) ({[node_id expr]} ∪ ∅) [expr].
Proof.
  unfold traverse_dags. cbn [push_unseen].
  rewrite decide_False by set_solver. reflexivity.
Qed.

(** The traversal meets no node twice. *)
Lemma traverse_dags_NoDup (expr : TensorBase) :
  NoDup (node_id <$> traverse_dags [expr]).
Proof.
  rewrite traverse_dags_single. apply traverse_loop_nodup.
  - apply NoDup_singleton.
  - intros x ->%list_elem_of_singleton. set_solver.
Qed.

Lemma traverse_dags_root (expr : TensorBase) : expr ∈ traverse_dags [expr].
Proof.
  rewrite traverse_dags_single.
  apply traverse_loop_complete; [done|]. by left.
Qed.

(** The traversal meets nodes of the expression only. *)
Lemma traverse_dags_subterms (expr x : TensorBase) :
  x ∈ traverse_dags [expr] → x ∈ subterms expr.
Proof.
  rewrite traverse_dags_single. intros Hx.
  apply traverse_loop_complete in Hx as (y & ->%list_elem_of_singleton & Hx);
    done.
Qed.

(** The identities met are closed under operands. *)
Lemma traverse_dags_closed (expr x o : TensorBase) :
  x ∈ traverse_dags [expr] → o ∈ operands x →
  node_id o ∈ node_id <$> traverse_dags [expr].
Proof.
  intros Hx Ho. pose proof (traverse_dags_root expr) as Hroot.
  rewrite traverse_dags_single in *.
  destruct (traverse_loop_complete (sum_list (tensor_size <$> [expr]))
              ({[node_id expr]} ∪ ∅) [expr]) as (_ & Hclosed & _); [done|].
  destruct (Hclosed x o Hx Ho) as [Hs|Hr]; [|done].
  assert (node_id o = node_id expr) as -> by set_solver.
  by apply list_elem_of_fmap_2.
Qed.

(** With coherent identities, the traversal meets every node of the
    expression: the fuel is never exhausted. *)
Lemma traverse_dags_complete (expr s : TensorBase) :
  identity_coherent expr →
  s ∈ subterms expr → s ∈ traverse_dags [expr].
Proof.
  intros Hcoh.
  assert (∀ t, t ∈ subterms expr → t ∈ traverse_dags [expr] →
               ∀ s, s ∈ subterms t → s ∈ traverse_dags [expr]) as Hdown.
  { induction t as [i|i a ops IH] using TensorBase_nested_ind; intros Ht Hin s' Hs.
    - apply subterms_unfold in Hs as [->|(o & Ho & _)]; [done|].
      by apply elem_of_nil in Ho.
    - apply subterms_unfold in Hs as [->|(o & Ho & Hs)]; [done|].
      simpl in Ho. rewrite Forall_forall in IH.
      assert (o ∈ subterms expr) as Hosub.
      { eapply subterms_trans; [|exact Ht]. by apply subterms_operand. }
      apply (IH o); [done|done| |done].
      pose proof (traverse_dags_closed expr _ o Hin Ho) as Hid.
      apply list_elem_of_fmap in Hid as (x & Hox & Hx).
      rewrite (Hcoh o x Hosub (traverse_dags_subterms _ _ Hx) Hox). done. }
  intros Hs. apply (Hdown expr); [apply subterms_self|apply traverse_dags_root|done].
Qed.

(** Under coherent identities, membership in the traversal is membership
    in the expression. *)
Lemma traverse_dags_elem_of (expr s : TensorBase) :
  identity_coherent expr →
  s ∈ traverse_dags [expr] ↔ s ∈ subterms expr.
Proof.
  intros Hcoh. split; [apply traverse_dags_subterms|by apply traverse_dags_complete].
Qed.

(** ** Python's [sorted] *)

Section sorted.
Context {A : Type} (key : A → nat).

Lemma insert_by_perm (x : A) (l : list A) : insert_by key x l ≡ₚ x :: l.
Proof.
  induction l as [|y l IH]; simpl; [done|].
  destruct (decide (key x ≤ key y)); [done|].
  rewrite IH. apply Permutation_swap.
Qed.

Lemma sorted_perm (l : list A) : sorted key l ≡ₚ l.
Proof.
  induction l as [|x l IH]; simpl; [done|].
  by rewrite insert_by_perm, IH.
Qed.

Lemma insert_by_StronglySorted (x : A) (l : list A) :
  StronglySorted (λ a b, key a ≤ key b) l →
  StronglySorted (λ a b, key a ≤ key b) (insert_by key x l).
Proof.
  induction 1 as [|y l Hl IH Hy]; simpl.
  - repeat constructor.
  - destruct (decide (key x ≤ key y)) as [Hle|Hgt].
    + constructor; [by constructor|].
      constructor; [done|]. eapply Forall_impl; [exact Hy|]. simpl. lia.
    + constructor; [done|].
      rewrite insert_by_perm. constructor; [lia|done].
Qed.

Lemma sorted_StronglySorted (l : list A) :
  StronglySorted (λ a b, key a ≤ key b) (sorted key l).
Proof.
  induction l as [|x l IH]; simpl; [constructor|].
  by apply insert_by_StronglySorted.
Qed.

(** The elements with one key come out in the order they went in. *)
Lemma insert_by_filter (k : nat) (x : A) (l : list A) :
  filter (λ y, key y = k) (insert_by key x l)
  = filter (λ y, key y = k) (x :: l).
Proof.
  induction l as [|y l IH]; simpl; [done|].
  destruct (decide (key x ≤ key y)) as [Hle|Hgt]; [done|].
  rewrite (filter_cons _ y), IH, !(filter_cons _ x), (filter_cons _ y).
  destruct (decide (key x = k)), (decide (key y = k)); try done. lia.
Qed.

Lemma sorted_stable (k : nat) (l : list A) :
  filter (λ y, key y = k) (sorted key l) = filter (λ y, key y = k) l.
Proof.
  induction l as [|x l IH]; simpl; [done|].
  by rewrite insert_by_filter, !filter_cons, IH.
Qed.
End sorted.

Lemma insert_by_fmap {A B : Type} (f : A → B) (key : A → nat) (key' : B → nat)
    (x : A) (l : list A) :
  (∀ x, key' (f x) = key x) →
  insert_by key' (f x) (f <$> l) = f <$> insert_by key x l.
Proof.
  intros Hkey. induction l as [|y l IH]; simpl; [done|].
  rewrite !Hkey. destruct (decide (key x ≤ key y)); [done|].
  rewrite fmap_cons. f_equal. apply IH.
Qed.

Lemma sorted_fmap {A B : Type} (f : A → B) (key : A → nat) (key' : B → nat)
    (l : list A) :
  (∀ x, key' (f x) = key x) →
  sorted key' (f <$> l) = f <$> sorted key l.
Proof.
  intros Hkey. unfold sorted. induction l as [|x l IH]; [done|].
  rewrite fmap_cons. cbn [foldr]. rewrite IH. by apply insert_by_fmap.
Qed.

Lemma StronglySorted_filter {A : Type} (R : relation A) (P : A → Prop)
    `{!∀ x, Decision (P x)} (l : list A) :
  StronglySorted R l → StronglySorted R (filter P l).
Proof.
  induction 1 as [|x l Hl IH Hx]; [constructor|].
  rewrite filter_cons. destruct (decide (P x)); [|done].
  constructor; [done|].
  rewrite Forall_forall in Hx |- *. intros y [_ Hy]%list_elem_of_filter. auto.
Qed.

(** ** [generate_expr_data] *)

(** The operators are collected in the order they are met. *)
Lemma expr_data_ops (l : list TensorBase) (tm : Temps) (ops : list TensorBase) :
  (foldl expr_data_step (tm, ops) l).2 = ops ++ filter is_TensorOp l.
Proof.
  revert tm ops. induction l as [|t l IH]; intros tm ops; simpl.
  - by rewrite app_nil_r.
  - destruct t as [i|i a o]; cbn [expr_data_step fst snd]; rewrite IH.
    + by rewrite filter_cons_False by (simpl; tauto).
    + rewrite filter_cons_True by done. by rewrite <-app_assoc.
Qed.

(** Whatever sequence of nodes the loop is run on, and however often a
    terminal occurs in it, the keys stay distinct and the symbols are
    [T0], [T1], ... in the order of the entries. *)
Lemma expr_data_temps_invariant (l : list TensorBase) (tm : Temps)
    (ops : list TensorBase) :
  NoDup (temps_keys tm) →
  tm.*2 = (λ i, {| symbol := "T" +:+ pretty i |}) <$> seq 0 (length tm) →
  NoDup (temps_keys (foldl expr_data_step (tm, ops) l).1) ∧
  (foldl expr_data_step (tm, ops) l).1.*2
  = (λ i, {| symbol := "T" +:+ pretty i |})
      <$> seq 0 (length (foldl expr_data_step (tm, ops) l).1).
Proof.
  revert tm ops. induction l as [|t l IH]; intros tm ops Hnd Hsym; [done|].
  cbn [foldl]. destruct t as [i|i a o]; cbn [expr_data_step fst snd].
  - apply IH; unfold setdefault; destruct (decide _) as [Hin|Hnotin]; try done.
    + unfold temps_keys in *. rewrite fmap_app. simpl.
      apply NoDup_app. split_and!; [done| |apply NoDup_singleton].
      intros j Hj ->%list_elem_of_singleton. done.
    + rewrite fmap_app, length_app, Hsym. simpl.
      by rewrite Nat.add_1_r, seq_S, fmap_app.
  - by apply IH.
Qed.

(** On a sequence without repeated nodes every terminal gets the next
    symbol. *)
Lemma expr_data_temps_distinct (l : list TensorBase) (tm : Temps)
    (ops : list TensorBase) :
  NoDup (temps_keys tm ++ (node_id <$> l)) →
  (foldl expr_data_step (tm, ops) l).1
  = tm ++ imap (λ j t, (t, {| symbol := "T" +:+ pretty (length tm + j) |}))
               (filter is_Tensor l).
Proof.
  revert tm ops. induction l as [|t l IH]; intros tm ops Hnd.
  - simpl. by rewrite app_nil_r.
  - cbn [foldl]. rewrite fmap_cons in Hnd.
    assert ((node_id t ∉ temps_keys tm) ∧ NoDup (temps_keys tm ++ (node_id <$> l))
            ∧ node_id t ∉ (node_id <$> l)) as (Hfresh & Hnd' & Hnotin).
    { apply NoDup_app in Hnd as (Hk & Hdisj & [Hnotin Hl]%NoDup_cons).
      split_and!; [| |done].
      - intros Hin. apply (Hdisj _ Hin). by left.
      - apply NoDup_app. split_and!; [done| |done].
        intros j Hj Hj'. apply (Hdisj _ Hj). by right. }
    destruct t as [i|i a o]; cbn [expr_data_step fst snd].
    + unfold setdefault. rewrite decide_False by done.
      rewrite IH.
      * rewrite filter_cons_True by done. rewrite <-app_assoc. simpl.
        rewrite Nat.add_0_r. do 2 f_equal. apply imap_ext. intros j x _. simpl.
        rewrite length_app. simpl.
        by replace (length tm + 1 + j) with (length tm + S j) by lia.
      * unfold temps_keys in *. rewrite fmap_app, <-app_assoc. simpl.
        apply NoDup_app in Hnd' as (Hk & Hdisj & Hl).
        apply NoDup_app. split_and!; [done| |by apply NoDup_cons].
        intros j Hj [->|Hj']%elem_of_cons; [done|]. by apply (Hdisj j).
    + rewrite filter_cons_False by (simpl; tauto). by apply IH.
Qed.

(** [generate_expr_data], spelled out over the traversal. *)
Lemma generate_expr_data_spec (expr : TensorBase) :
  generate_expr_data expr
  = (imap (λ j t, (t, {| symbol := "T" +:+ pretty j |}))
          (filter is_Tensor (traverse_dags [expr])),
     sorted count_operands (filter is_TensorOp (traverse_dags [expr]))).
Proof.
  unfold generate_expr_data.
  rewrite expr_data_ops, expr_data_temps_distinct; [done|].
  simpl. apply traverse_dags_NoDup.
Qed.

(** ** Reference counts *)

Lemma count_edges_is_Some (ops : list TensorBase) (rc : gmap nat nat) (i : nat) :
  is_Some (rc !! i) → is_Some (foldl count_edge rc ops !! i).
Proof.
  revert rc. induction ops as [|o ops IH]; intros rc Hi; simpl; [done|].
  apply IH. unfold count_edge.
  destruct (decide (node_id o = i)) as [->|Hne].
  - rewrite lookup_insert_eq. eauto.
  - by rewrite lookup_insert_ne.
Qed.

Lemma count_node_is_Some (node : TensorBase) (rc : gmap nat nat) (i : nat) :
  is_Some (rc !! i) ∨ i = node_id node → is_Some (count_node rc node !! i).
Proof.
  intros Hi. unfold count_node. apply count_edges_is_Some.
  destruct (decide (node_id node = i)) as [->|Hne].
  - rewrite lookup_insert_eq. eauto.
  - rewrite lookup_insert_ne by done. by destruct Hi as [Hi| ->].
Qed.

Lemma count_nodes_is_Some (l : list TensorBase) (rc : gmap nat nat) (i : nat) :
  is_Some (rc !! i) ∨ i ∈ node_id <$> l →
  is_Some (foldl count_node rc l !! i).
Proof.
  revert rc. induction l as [|x l IH]; intros rc Hi; simpl.
  - destruct Hi as [Hi|Hi]; [done|]. by apply elem_of_nil in Hi.
  - apply IH. rewrite fmap_cons, elem_of_cons in Hi.
    destruct Hi as [Hi|[->|Hi]]; [| |by right]; left;
      apply count_node_is_Some; auto.
Qed.

(** Every node the traversal meets has a reference count. *)
Lemma collect_reference_count_is_Some (expr x : TensorBase) :
  x ∈ traverse_dags [expr] →
  is_Some (collect_reference_count [expr] !! node_id x).
Proof.
  intros Hx. apply count_nodes_is_Some. right. by apply list_elem_of_fmap_2.
Qed.

(** ** [__init__] *)

Lemma select_aux_exprs_spec (rc : gmap nat nat) (ops aux : list TensorBase) :
  (∀ op, op ∈ ops → is_Some (rc !! node_id op)) →
  select_aux_exprs rc ops aux = Ok (aux ++ filter (needs_temporary rc) ops).
Proof.
  revert aux. induction ops as [|op ops IH]; intros aux Hsome; simpl.
  - by rewrite app_nil_r.
  - destruct (Hsome op) as [n Hn]; [by left|]. rewrite Hn.
    assert (needs_temporary rc op = bool_decide (1 < n) || is_Action op) as Hneeds.
    { unfold needs_temporary. by rewrite Hn. }
    rewrite <-Hneeds. destruct (needs_temporary rc op) eqn:Hop.
    + rewrite IH by (intros; apply Hsome; by right).
      rewrite filter_cons_True by (by apply Is_true_true). by rewrite <-app_assoc.
    + rewrite IH by (intros; apply Hsome; by right).
      by rewrite filter_cons_False by (by apply Is_true_false).
Qed.

(** The constructor returns, and this is the builder it returns. *)
Lemma init_spec (expr : TensorBase) (params : option (list (string * string))) :
  __init__ expr params
  = Ok {| expression := expr;
          tsfc_parameters := params;
          needs_cell_facets := false;
          needs_mesh_layers := false;
          oriented := false;
          finalized_ast := None;
          _is_finalized := false;
          temps := imap (λ j t, (t, {| symbol := "T" +:+ pretty j |}))
                        (filter is_Tensor (traverse_dags [expr]));
          aux_exprs := filter (needs_temporary (collect_reference_count [expr]))
                         (sorted count_operands
                            (filter is_TensorOp (traverse_dags [expr])));
          cached_coefficient_map := None;
          cached_context_kernels := None |}.
Proof.
  unfold __init__. rewrite generate_expr_data_spec.
  rewrite select_aux_exprs_spec; [done|].
  intros op Hop. apply collect_reference_count_is_Some.
  eapply elem_of_Permutation_proper in Hop; [|symmetry; apply sorted_perm].
  by apply list_elem_of_filter in Hop as [_ Hop].
Qed.

(** ** What a reference count counts *)

Lemma count_edges_default (ops : list TensorBase) (rc : gmap nat nat) (i : nat) :
  default 0 (foldl count_edge rc ops !! i)
  = default 0 (rc !! i) + length (filter (λ o, node_id o = i) ops).
Proof.
  revert rc. induction ops as [|o ops IH]; intros rc; simpl; [lia|].
  rewrite IH, filter_cons. unfold count_edge.
  destruct (decide (node_id o = i)) as [->|Hne].
  - rewrite lookup_insert_eq. simpl. lia.
  - by rewrite lookup_insert_ne.
Qed.

Lemma count_nodes_default (l : list TensorBase) (rc : gmap nat nat) (i : nat) :
  default 0 (foldl count_node rc l !! i) = default 0 (rc !! i) + in_edges l i.
Proof.
  revert rc. unfold in_edges.
  induction l as [|x l IH]; intros rc; simpl; [lia|].
  rewrite IH. unfold count_node. rewrite count_edges_default.
  destruct (decide (node_id x = i)) as [->|Hne].
  - rewrite lookup_insert_eq. simpl. symmetry. apply Nat.add_assoc.
  - rewrite lookup_insert_ne by done. symmetry. apply Nat.add_assoc.
Qed.

(** The reference count of a node is the number of edges that point to it
    from the nodes the traversal meets. *)
Lemma collect_reference_count_edges (expr x : TensorBase) :
  x ∈ traverse_dags [expr] →
  collect_reference_count [expr] !! node_id x
  = Some (in_edges (traverse_dags [expr]) (node_id x)).
Proof.
  intros Hx. destruct (collect_reference_count_is_Some expr x Hx) as [n Hn].
  pose proof (count_nodes_default (traverse_dags [expr]) ∅ (node_id x)) as Hd.
  unfold collect_reference_count in *. rewrite Hn in Hd |- *.
  rewrite lookup_empty in Hd. simpl in Hd. by rewrite Hd.
Qed.

(** ** The temporaries and the auxiliary expressions *)

Lemma filter_swap {A : Type} (P Q : A → Prop) `{!∀ x, Decision (P x)}
    `{!∀ x, Decision (Q x)} (l : list A) :
  filter P (filter Q l) = filter Q (filter P l).
Proof.
  rewrite !list_filter_filter. apply list_filter_iff. intros x. tauto.
Qed.

(** The symbols [T0], [T1], ... are pairwise distinct. *)
Lemma temporary_names_distinct (n : nat) :
  NoDup ((λ i, {| symbol := "T" +:+ pretty i |}) <$> seq 0 n).
Proof.
  apply NoDup_fmap_2_strong; [|apply NoDup_seq].
  intros i j _ _ Heq. injection Heq as Heq. by apply (inj pretty).
Qed.

(** C5: for an expression whose node identities are coherent, the
    temporaries of [generate_expr_data] have pairwise distinct keys, an
    entry for every terminal tensor of the expression and for nothing
    else, the symbols [T0], [T1], ... in the order of the entries, and the
    entries in the order in which the traversal first meets the terminals;
    the symbols are pairwise distinct.  The distinct keys and the
    consecutive symbols do not depend on the traversal: they hold for the
    loop run on any sequence of visits, with any number of visits of one
    node. *)
Theorem temporaries_one_per_terminal (expr : TensorBase) :
  identity_coherent expr →
  let temps := (generate_expr_data expr).1 in
  NoDup (temps_keys temps) ∧
  (∀ t, t ∈ subterms expr → is_Tensor t → ∃ sym, (t, sym) ∈ temps) ∧
  (∀ t sym, (t, sym) ∈ temps → t ∈ subterms expr ∧ is_Tensor t) ∧
  temps.*2 = (λ i, {| symbol := "T" +:+ pretty i |}) <$> seq 0 (length temps) ∧
  temps.*1 = filter is_Tensor (traverse_dags [expr]) ∧
  NoDup temps.*2 ∧
  (∀ visits : list TensorBase,
     let temps' := (foldl expr_data_step ([], []) visits).1 in
     NoDup (temps_keys temps') ∧
     temps'.*2
     = (λ i, {| symbol := "T" +:+ pretty i |}) <$> seq 0 (length temps')).
Proof.
  intros Hcoh. simpl.
  assert ((generate_expr_data expr).1.*1 = filter is_Tensor (traverse_dags [expr]))
    as Hkeys.
  { rewrite generate_expr_data_spec. simpl. apply imap_fst. }
  destruct (expr_data_temps_invariant (traverse_dags [expr]) [] [])
    as [Hnd Hsym]; [apply NoDup_nil_2|done|].
  split_and!; try done.
  - intros t Ht Hterm.
    assert (t ∈ (generate_expr_data expr).1.*1) as Hin.
    { rewrite Hkeys. apply list_elem_of_filter. split; [done|].
      by apply traverse_dags_complete. }
    apply list_elem_of_fmap in Hin as ([t' sym] & -> & Hin). eauto.
  - intros t sym Hin.
    assert (t ∈ (generate_expr_data expr).1.*1) as Hin'.
    { apply list_elem_of_fmap. by exists (t, sym). }
    rewrite Hkeys in Hin'. apply list_elem_of_filter in Hin' as [Hterm Hin'].
    split; [by apply traverse_dags_subterms|done].
  - refine (eq_ind_r NoDup _ Hsym). apply temporary_names_distinct.
  - intros visits.
    apply expr_data_temps_invariant; [apply NoDup_nil_2|done].
Qed.

(** C3: for an expression whose node identities are coherent the
    constructor returns a builder, and an operator node of the expression
    is in its [aux_exprs] exactly when its reference count is greater than
    1 or it is an [Action]; the reference count is the number of operand
    edges that point to the node from the nodes of the graph.  [aux_exprs]
    holds operators of the expression only, none twice, in non-decreasing
    order of operand count, and the operators with equal operand count in
    the order in which the traversal meets them. *)
Theorem aux_exprs_shared_or_action (expr : TensorBase)
    (params : option (list (string * string))) :
  identity_coherent expr →
  ∃ self, __init__ expr params = Ok self ∧
    (∀ op, op ∈ subterms expr → is_TensorOp op →
       (op ∈ aux_exprs self ↔
        (∃ n, collect_reference_count [expr] !! node_id op = Some n ∧ 1 < n)
        ∨ is_Action op)) ∧
    (∀ op, op ∈ subterms expr →
       collect_reference_count [expr] !! node_id op
       = Some (in_edges (traverse_dags [expr]) (node_id op))) ∧
    (∀ op, op ∈ aux_exprs self → op ∈ subterms expr ∧ is_TensorOp op) ∧
    NoDup (node_id <$> aux_exprs self) ∧
    StronglySorted (λ a b, count_operands a ≤ count_operands b) (aux_exprs self) ∧
    (∀ k, filter (λ op, count_operands op = k) (aux_exprs self)
          `sublist_of` traverse_dags [expr]).
Proof.
  intros Hcoh. eexists. split; [apply init_spec|]. simpl.
  set (rc := collect_reference_count [expr]).
  set (trav := traverse_dags [expr]).
  assert (∀ op, op ∈ filter (needs_temporary rc)
                       (sorted count_operands (filter is_TensorOp trav))
                ↔ needs_temporary rc op ∧ is_TensorOp op ∧ op ∈ trav) as Hmem.
  { intros op. rewrite list_elem_of_filter, (sorted_perm count_operands),
      list_elem_of_filter. done. }
  split_and!.
  - intros op Hop Hisop. rewrite Hmem.
    apply (traverse_dags_complete expr op Hcoh) in Hop as Hin.
    destruct (collect_reference_count_is_Some expr op Hin) as [n Hn].
    fold rc in Hn. unfold needs_temporary. rewrite Hn. simpl.
    rewrite orb_True, bool_decide_spec. split.
    + intros ([Hlt|Hact] & _ & _); [left; eauto|by right].
    + intros [(n' & Hn' & Hlt)|Hact]; [|by auto]. simplify_eq. auto.
  - intros op Hop. apply collect_reference_count_edges.
    by apply traverse_dags_complete.
  - intros op (_ & Hisop & Hin)%Hmem.
    split; [by apply traverse_dags_subterms|done].
  - apply (NoDup_fmap_2_strong node_id).
    + intros a b Ha%Hmem Hb%Hmem Hid.
      apply Hcoh; [apply traverse_dags_subterms|apply traverse_dags_subterms|];
        tauto.
    + apply NoDup_filter. rewrite (sorted_perm count_operands).
      apply NoDup_filter. eapply NoDup_fmap_1, traverse_dags_NoDup.
  - apply StronglySorted_filter, sorted_StronglySorted.
  - intros k. rewrite filter_swap, sorted_stable.
    etrans; [apply sublist_filter|]. etrans; apply sublist_filter.
Qed.

(** ** Renaming the node objects *)

Lemma rename_node_id (f : nat → nat) (t : TensorBase) :
  node_id (rename f t) = f (node_id t).
Proof. by destruct t. Qed.

Lemma rename_operands (f : nat → nat) (t : TensorBase) :
  operands (rename f t) = rename f <$> operands t.
Proof. by destruct t. Qed.

Lemma rename_is_Tensor (f : nat → nat) (t : TensorBase) :
  is_Tensor (rename f t) = is_Tensor t.
Proof. by destruct t. Qed.

Lemma rename_is_TensorOp (f : nat → nat) (t : TensorBase) :
  is_TensorOp (rename f t) = is_TensorOp t.
Proof. by destruct t. Qed.

Lemma rename_is_Action (f : nat → nat) (t : TensorBase) :
  is_Action (rename f t) = is_Action t.
Proof. by destruct t. Qed.

Lemma rename_count_operands (f : nat → nat) (t : TensorBase) :
  count_operands (rename f t) = count_operands t.
Proof. unfold count_operands. by rewrite rename_operands, length_fmap. Qed.

Lemma rename_tensor_size (f : nat → nat) (t : TensorBase) :
  tensor_size (rename f t) = tensor_size t.
Proof.
  induction t as [i|i a ops IH] using TensorBase_nested_ind; [done|].
  cbn [rename tensor_size]. rewrite <-list_fmap_compose. do 2 f_equal.
  by apply Forall_fmap_ext_1.
Qed.

Lemma rename_sum_sizes (f : nat → nat) (l : list TensorBase) :
  sum_list (tensor_size <$> (rename f <$> l)) = sum_list (tensor_size <$> l).
Proof.
  rewrite <-list_fmap_compose. f_equal. apply list_fmap_ext.
  intros _ t _. apply rename_tensor_size.
Qed.

Lemma elem_of_set_map_inj (f : nat → nat) (U seen : gset nat) (i : nat) :
  injective_on f U → seen ⊆ U → i ∈ U →
  f i ∈ (set_map f seen : gset nat) ↔ i ∈ seen.
Proof.
  intros Hinj Hsub Hi. rewrite elem_of_map. split.
  - intros (j & Hij & Hj). rewrite (Hinj i j); auto.
  - intros Hin. eauto.
Qed.

Lemma set_map_add (f : nat → nat) (i : nat) (seen : gset nat) :
  ({[f i]} ∪ set_map f seen : gset nat) = set_map f ({[i]} ∪ seen).
Proof. by rewrite set_map_union_L, set_map_singleton_L. Qed.

Lemma push_unseen_rename (f : nat → nat) (U : gset nat)
    (ops : list TensorBase) (seen : gset nat) (container : list TensorBase) :
  injective_on f U → seen ⊆ U → (∀ o, o ∈ ops → node_id o ∈ U) →
  push_unseen (rename f <$> ops) (set_map f seen) (rename f <$> container)
  = (set_map f (push_unseen ops seen container).1,
     rename f <$> (push_unseen ops seen container).2).
Proof.
  intros Hinj. revert seen container.
  induction ops as [|o ops IH]; intros seen container Hseen Hops; [done|].
  rewrite fmap_cons. cbn [push_unseen]. rewrite rename_node_id.
  assert (node_id o ∈ U) as Ho by (apply Hops; left).
  destruct (decide (node_id o ∈ seen)) as [Hin|Hnotin].
  - rewrite decide_True by (by apply (elem_of_set_map_inj f U)).
    apply IH; [done|]. intros; apply Hops; by right.
  - rewrite decide_False by (by rewrite (elem_of_set_map_inj f U)).
    rewrite set_map_add, <-(fmap_cons (rename f)).
    apply IH; [set_solver|]. intros; apply Hops; by right.
Qed.

Lemma push_unseen_seen_subseteq (U : gset nat) (ops : list TensorBase)
    (seen : gset nat) (container : list TensorBase) :
  seen ⊆ U → (∀ o, o ∈ ops → node_id o ∈ U) →
  (push_unseen ops seen container).1 ⊆ U.
Proof.
  intros Hseen Hops.
  destruct (push_unseen_spec ops seen container) as (new & -> & _ & Hnew & _).
  simpl. intros i [Hi|Hi]%elem_of_union; [|by apply Hseen].
  apply elem_of_list_to_set, list_elem_of_fmap in Hi as (x & -> & Hx).
  apply Hops. by apply Hnew.
Qed.

Lemma push_unseen_container (ops : list TensorBase) (seen : gset nat)
    (container : list TensorBase) (x : TensorBase) :
  x ∈ (push_unseen ops seen container).2 → x ∈ ops ∨ x ∈ container.
Proof.
  destruct (push_unseen_spec ops seen container) as (new & -> & _ & Hnew & _).
  simpl. intros [Hx|Hx]%elem_of_app; [left; by apply Hnew|by right].
Qed.

Lemma traverse_loop_rename (f : nat → nat) (U : gset nat) (fuel : nat)
    (seen : gset nat) (container : list TensorBase) :
  injective_on f U → seen ⊆ U → (∀ x, x ∈ container → node_ids x ⊆ U) →
  traverse_loop fuel (set_map f seen) (rename f <$> container)
  = rename f <$> traverse_loop fuel seen container.
Proof.
  intros Hinj. revert seen container.
  induction fuel as [|fuel IH]; intros seen [|t rest] Hseen Hcont; try done.
  rewrite fmap_cons. cbn [traverse_loop]. rewrite rename_operands.
  assert (∀ o, o ∈ operands t → node_id o ∈ U) as Hops.
  { intros o Ho. apply (Hcont t); [by left|].
    apply (node_ids_operand t o Ho), node_ids_self. }
  rewrite (push_unseen_rename f U) by done.
  pose proof (push_unseen_seen_subseteq U (operands t) seen rest Hseen Hops) as Hsub.
  pose proof (push_unseen_container (operands t) seen rest) as Hc.
  destruct (push_unseen (operands t) seen rest) as [seen' container'].
  cbn [fst snd] in *. rewrite fmap_cons. f_equal. apply IH; [done|].
  intros x [Hx|Hx]%Hc.
  - etrans; [by apply node_ids_operand|]. apply Hcont. by left.
  - apply Hcont. by right.
Qed.

(** The traversal of the expression built from other node objects meets
    the corresponding nodes in the same order. *)
Lemma traverse_dags_rename (f : nat → nat) (expr : TensorBase) :
  injective_on f (node_ids expr) →
  traverse_dags [rename f expr] = rename f <$> traverse_dags [expr].
Proof.
  intros Hinj. rewrite !traverse_dags_single.
  change [rename f expr] with (rename f <$> [expr]).
  rewrite rename_sum_sizes, rename_node_id.
  rewrite <-(set_map_empty (C:=gset nat) (D:=gset nat) f) at 1.
  rewrite set_map_add.
  apply (traverse_loop_rename f (node_ids expr)); [done| |].
  - pose proof (node_ids_self expr). set_solver.
  - by intros x ->%list_elem_of_singleton.
Qed.

Lemma filter_fmap_elem_of {A B : Type} (f : A → B) (P : B → Prop) (Q : A → Prop)
    `{!∀ y, Decision (P y)} `{!∀ x, Decision (Q x)} (l : list A) :
  (∀ x, x ∈ l → P (f x) ↔ Q x) →
  filter P (f <$> l) = f <$> filter Q l.
Proof.
  induction l as [|x l IH]; intros Hext; [done|].
  rewrite fmap_cons, !filter_cons. rewrite IH by (intros; apply Hext; by right).
  pose proof (Hext x (list_elem_of_here _ _)) as Hx.
  destruct (decide (P (f x))), (decide (Q x)); try done; tauto.
Qed.

Lemma filter_fmap_rename (f : nat → nat) (p : TensorBase → bool)
    (l : list TensorBase) :
  (∀ t, p (rename f t) = p t) →
  filter p (rename f <$> l) = rename f <$> filter p l.
Proof.
  intros Hp. apply filter_fmap_elem_of. intros t _. by rewrite Hp.
Qed.

(** ** Reference counts of the renamed expression *)

Lemma count_edges_rename (f : nat → nat) (U : gset nat) (ops : list TensorBase)
    (rc rc' : gmap nat nat) :
  injective_on f U → (∀ o, o ∈ ops → node_id o ∈ U) →
  (∀ i, i ∈ U → rc' !! f i = rc !! i) →
  ∀ i, i ∈ U →
    foldl count_edge rc' (rename f <$> ops) !! f i = foldl count_edge rc ops !! i.
Proof.
  intros Hinj. revert rc rc'.
  induction ops as [|o ops IH]; intros rc rc' Hops Hrc; [done|].
  rewrite fmap_cons. cbn [foldl]. apply IH; [intros; apply Hops; by right|].
  intros i Hi. unfold count_edge. rewrite rename_node_id.
  assert (node_id o ∈ U) as Ho by (apply Hops; left).
  destruct (decide (node_id o = i)) as [->|Hne].
  - by rewrite !lookup_insert_eq, Hrc.
  - rewrite !lookup_insert_ne; [by apply Hrc|done|].
    intros Heq. apply Hne. by apply Hinj.
Qed.

Lemma count_nodes_rename (f : nat → nat) (U : gset nat) (l : list TensorBase)
    (rc rc' : gmap nat nat) :
  injective_on f U → (∀ x, x ∈ l → node_ids x ⊆ U) →
  (∀ i, i ∈ U → rc' !! f i = rc !! i) →
  ∀ i, i ∈ U →
    foldl count_node rc' (rename f <$> l) !! f i = foldl count_node rc l !! i.
Proof.
  intros Hinj. revert rc rc'.
  induction l as [|x l IH]; intros rc rc' Hl Hrc; [done|].
  rewrite fmap_cons. cbn [foldl]. apply IH; [intros; apply Hl; by right|].
  assert (node_id x ∈ U) as Hx by (apply (Hl x); [by left|apply node_ids_self]).
  unfold count_node. rewrite rename_node_id, rename_operands.
  apply (count_edges_rename f U); [done| |].
  - intros o Ho. apply (Hl x); [by left|].
    apply (node_ids_operand x o Ho), node_ids_self.
  - intros i Hi. destruct (decide (node_id x = i)) as [->|Hne].
    + by rewrite !lookup_insert_eq, Hrc.
    + rewrite !lookup_insert_ne; [by apply Hrc|done|].
      intros Heq. apply Hne. by apply Hinj.
Qed.

Lemma node_ids_subterm (expr x : TensorBase) :
  x ∈ subterms expr → node_ids x ⊆ node_ids expr.
Proof.
  intros Hx i. rewrite !node_ids_spec. intros (s & Hs & <-).
  exists s. split; [|done]. by eapply subterms_trans.
Qed.

Lemma collect_reference_count_rename (f : nat → nat) (expr : TensorBase) (i : nat) :
  injective_on f (node_ids expr) → i ∈ node_ids expr →
  collect_reference_count [rename f expr] !! f i
  = collect_reference_count [expr] !! i.
Proof.
  intros Hinj Hi. unfold collect_reference_count.
  rewrite traverse_dags_rename by done.
  apply (count_nodes_rename f (node_ids expr)); try done.
  intros x Hx. by apply node_ids_subterm, traverse_dags_subterms.
Qed.

(** C2: the expression built again from other node objects, with the
    same sharing ([f] sends distinct identities to distinct identities),
    gets the same symbols in the same order, for the corresponding
    terminals, the corresponding operators in the same order from
    [generate_expr_data], and from the constructor a builder whose
    [aux_exprs] are the corresponding nodes in the same order. *)
Theorem structurally_identical_graphs_agree (f : nat → nat) (expr : TensorBase)
    (params : option (list (string * string))) :
  injective_on f (node_ids expr) →
  (generate_expr_data (rename f expr)).1.*2 = (generate_expr_data expr).1.*2 ∧
  (generate_expr_data (rename f expr)).1.*1
  = rename f <$> (generate_expr_data expr).1.*1 ∧
  (generate_expr_data (rename f expr)).2
  = rename f <$> (generate_expr_data expr).2 ∧
  ∃ self self',
    __init__ expr params = Ok self ∧
    __init__ (rename f expr) params = Ok self' ∧
    (temps self').*2 = (temps self).*2 ∧
    aux_exprs self' = rename f <$> aux_exprs self.
Proof.
  intros Hinj.
  pose proof (traverse_dags_rename f expr Hinj) as Htrav.
  assert ((generate_expr_data (rename f expr)).1
          = prod_map (rename f) id <$> (generate_expr_data expr).1) as Htemps.
  { rewrite !generate_expr_data_spec. simpl. rewrite Htrav.
    rewrite (filter_fmap_rename f is_Tensor) by apply rename_is_Tensor.
    rewrite imap_fmap, fmap_imap. done. }
  assert ((generate_expr_data (rename f expr)).2
          = rename f <$> (generate_expr_data expr).2) as Hops.
  { rewrite !generate_expr_data_spec. simpl. rewrite Htrav.
    rewrite (filter_fmap_rename f is_TensorOp) by apply rename_is_TensorOp.
    apply sorted_fmap, rename_count_operands. }
  assert (∀ tm : Temps, (prod_map (rename f) id <$> tm).*2 = tm.*2) as Hsnd.
  { intros tm. rewrite <-list_fmap_compose. apply list_fmap_ext. by intros _ [] _. }
  assert (∀ tm : Temps, (prod_map (rename f) id <$> tm).*1 = rename f <$> tm.*1) as Hfst.
  { intros tm. rewrite <-!list_fmap_compose. apply list_fmap_ext. by intros _ [] _. }
  split_and!.
  - by rewrite Htemps, Hsnd.
  - by rewrite Htemps, Hfst.
  - done.
  - eexists _, _. split; [apply init_spec|]. split; [apply init_spec|]. simpl.
    rewrite !generate_expr_data_spec in Htemps, Hops. simpl in *.
    split; [by rewrite Htemps, Hsnd|].
    rewrite Hops. apply filter_fmap_elem_of. intros op Hop.
    assert (op ∈ traverse_dags [expr]) as Hin.
    { rewrite (sorted_perm count_operands) in Hop.
      by apply list_elem_of_filter in Hop as [_ Hop]. }
    unfold needs_temporary.
    rewrite rename_node_id, rename_is_Action, collect_reference_count_rename;
      [done|done|].
    apply (node_ids_subterm expr op); [by apply traverse_dags_subterms|].
    apply node_ids_self.
Qed.

(** ** The builder of a shared sum under an action *)

Ltac enumerate_subterms H :=
  simpl in H;
  repeat (apply elem_of_cons in H as [->|H]);
  try (by apply elem_of_nil in H).

Lemma diamond_coherent : identity_coherent diamond.
Proof.
  intros a b Ha Hb Hid. unfold diamond, shared_sum in *.
  enumerate_subterms Ha; enumerate_subterms Hb;
    first [reflexivity | discriminate Hid].
Qed.

Example diamond_traversal :
  node_id <$> traverse_dags [diamond] = [5; 4; 2; 0; 3].
Proof. reflexivity. Qed.

Example diamond_expr_data :
  generate_expr_data diamond
  = ([(Tensor 0, {| symbol := "T0" |})],
     [TensorOp 4 false [shared_sum]; TensorOp 3 true [shared_sum];
      diamond; shared_sum]).
Proof. reflexivity. Qed.

Example diamond_reference_counts :
  (λ i, collect_reference_count [diamond] !! i) <$> [0; 2; 3; 4; 5; 6]
  = [Some 2; Some 2; Some 1; Some 1; Some 0; None].
Proof. reflexivity. Qed.

Example diamond_aux_exprs :
  ∃ self, __init__ diamond None = Ok self ∧
          aux_exprs self = [TensorOp 3 true [shared_sum]; shared_sum].
Proof. eexists. split; reflexivity. Qed.

Example fresh_builder_init : __init__ (Tensor 0) None = Ok fresh_builder.
Proof. reflexivity. Qed.

(** Two terminal objects get two temporaries, one shared object gets one:
    the sharing is part of the structure of the graph. *)
Example sharing_matters :
  (generate_expr_data shared_sum).1.*2 = [ {| symbol := "T0" |} ] ∧
  (generate_expr_data unshared_sum).1.*2
  = [ {| symbol := "T0" |}; {| symbol := "T1" |} ].
Proof. split; reflexivity. Qed.

Lemma temporaries_one_per_terminal_witness :
  ∃ sym, (Tensor 0, sym) ∈ (generate_expr_data diamond).1.
Proof.
  destruct (temporaries_one_per_terminal diamond diamond_coherent)
    as (_ & Hentry & _).
  apply (Hentry (Tensor 0)); [|done].
  unfold diamond, shared_sum. simpl. set_solver.
Defined.

Lemma aux_exprs_shared_or_action_witness :
  ∃ self, __init__ diamond None = Ok self ∧
    (shared_sum ∈ aux_exprs self ↔
     (∃ n, collect_reference_count [diamond] !! node_id shared_sum = Some n ∧ 1 < n)
     ∨ is_Action shared_sum) ∧
    StronglySorted (λ a b, count_operands a ≤ count_operands b) (aux_exprs self).
Proof.
  destruct (aux_exprs_shared_or_action diamond None diamond_coherent)
    as (self & Hinit & Hiff & _ & _ & _ & Hsorted & _).
  exists self. split_and!; [done| |done].
  apply Hiff; [|done]. unfold diamond, shared_sum. simpl. set_solver.
Defined.

Lemma structurally_identical_graphs_agree_witness :
  (generate_expr_data (rename fresh_objects diamond)).1.*2
  = (generate_expr_data diamond).1.*2 ∧
  (generate_expr_data (rename fresh_objects diamond)).2
  = rename fresh_objects <$> (generate_expr_data diamond).2.
Proof.
  destruct (structurally_identical_graphs_agree fresh_objects diamond None)
    as (Hsym & _ & Hops & _).
  - intros a b _ _. unfold fresh_objects. lia.
  - by split.
Defined.

(** * Further properties of the builder and the halo *)

(** ** Attributes across calls *)

(** Unfolds a call down to the record it builds. *)
Ltac unfold_call :=
  unfold run_call, _finalize_kernels_and_update, coefficient, coefficient_map,
    context_kernels, construct_ast, require_cell_facets, require_mesh_layers;
  repeat (case_match; simplify_eq/=); simpl.

Lemma run_call_flags `{!Collaborators} (c : Call) (self : KernelBuilder) :
  needs_cell_facets (run_call c self)
  = needs_cell_facets self || is_require_cell_facets c ∧
  needs_mesh_layers (run_call c self)
  = needs_mesh_layers self || is_require_mesh_layers c.
Proof.
  destruct c; unfold_call; rewrite ?orb_false_r, ?orb_true_r; done.
Qed.

Lemma run_call_lifecycle `{!Collaborators} (c : Call) (self : KernelBuilder) :
  (_is_finalized self = true → _is_finalized (run_call c self) = true) ∧
  (oriented self = true → oriented (run_call c self) = true) ∧
  (is_finalize c = false →
   _is_finalized (run_call c self) = _is_finalized self ∧
   oriented (run_call c self) = oriented self) ∧
  expression (run_call c self) = expression self ∧
  tsfc_parameters (run_call c self) = tsfc_parameters self ∧
  ((_is_finalized self = true ↔ is_Some (finalized_ast self)) →
   (_is_finalized (run_call c self) = true
    ↔ is_Some (finalized_ast (run_call c self)))).
Proof.
  destruct c; unfold_call; split_and!; try done;
    try (rewrite finalize_loop_spec in *; case_match; simplify_eq/=);
    try naive_solver.
  all: by intros ->.
Qed.

Lemma run_calls_cons `{!Collaborators} (c : Call) (cs : list Call)
    (self : KernelBuilder) :
  run_calls (c :: cs) self = run_calls cs (run_call c self).
Proof. reflexivity. Qed.

(** X1: the flag [needs_cell_facets] is set by [require_cell_facets] and by
    nothing else, and nothing clears it; the same for [needs_mesh_layers]. *)
Theorem requirement_flags_after_calls `{!Collaborators} (cs : list Call)
    (self : KernelBuilder) :
  needs_cell_facets (run_calls cs self)
  = needs_cell_facets self || existsb is_require_cell_facets cs ∧
  needs_mesh_layers (run_calls cs self)
  = needs_mesh_layers self || existsb is_require_mesh_layers cs.
Proof.
  revert self. induction cs as [|c cs IH]; intros self.
  - simpl. by rewrite !orb_false_r.
  - rewrite run_calls_cons. destruct (IH (run_call c self)) as [-> ->].
    destruct (run_call_flags c self) as [-> ->]. simpl.
    by rewrite !orb_assoc.
Qed.

(** X2: no public operation takes a builder back: once finalized it stays
    finalized, and an orientation flag that is set stays set; the
    expression and the TSFC parameters are never replaced. *)
Theorem lifecycle_never_goes_back `{!Collaborators} (cs : list Call)
    (self : KernelBuilder) :
  (_is_finalized self = true → _is_finalized (run_calls cs self) = true) ∧
  (oriented self = true → oriented (run_calls cs self) = true) ∧
  expression (run_calls cs self) = expression self ∧
  tsfc_parameters (run_calls cs self) = tsfc_parameters self.
Proof.
  revert self. induction cs as [|c cs IH]; intros self; [done|].
  rewrite run_calls_cons.
  destruct (IH (run_call c self)) as (IHf & IHo & -> & ->).
  destruct (run_call_lifecycle c self) as (Hf & Ho & _ & -> & -> & _).
  split_and!; auto.
Qed.

Lemma lifecycle_never_goes_back_witness :
  _is_finalized
    (@run_calls default_collaborators
       [call_construct_ast (PyList [macro_kernel]); call_require_mesh_layers;
        call_finalize]
       finalized_builder) = true.
Proof.
  apply (@lifecycle_never_goes_back default_collaborators). reflexivity.
Defined.

Lemma init_not_finalized (expr : TensorBase)
    (params : option (list (string * string))) (self : KernelBuilder) :
  __init__ expr params = Ok self →
  _is_finalized self = false ∧ finalized_ast self = None ∧
  oriented self = false ∧ needs_cell_facets self = false ∧
  needs_mesh_layers self = false ∧ expression self = expr.
Proof. rewrite init_spec. intros [= <-]. done. Qed.

(** X3: on a builder that has been constructed and used without a call of
    [_finalize_kernels_and_update], [construct_ast] raises the assertion
    failure about the missing finalization and leaves the builder as it
    is. *)
Theorem construct_ast_before_finalize `{!Collaborators} (expr : TensorBase)
    (params : option (list (string * string))) (self : KernelBuilder)
    (cs : list Call) (items : list Node) :
  __init__ expr params = Ok self →
  existsb is_finalize cs = false →
  construct_ast (PyList items) (run_calls cs self)
  = (Raise (AssertionError
       "AST not finalized. Did you forget to call builder._finalize_kernels_and_update()?"),
     run_calls cs self).
Proof.
  intros (Hf & _)%init_not_finalized Hcs.
  assert (_is_finalized (run_calls cs self) = false) as Hnf.
  { revert self Hf. induction cs as [|c cs IH]; intros self Hf; [done|].
    simpl in Hcs. apply orb_false_iff in Hcs as [Hc Hcs].
    rewrite run_calls_cons. apply IH; [done|].
    destruct (run_call_lifecycle c self) as (_ & _ & Hsame & _).
    destruct (Hsame Hc) as [-> _]. done. }
  unfold construct_ast. by rewrite Hnf.
Qed.

Lemma construct_ast_before_finalize_witness :
  (construct_ast (PyList [macro_kernel])
     (@run_calls default_collaborators
        [call_require_cell_facets; call_coefficient_map; call_context_kernels]
        fresh_builder)).1
  = Raise (AssertionError
      "AST not finalized. Did you forget to call builder._finalize_kernels_and_update()?").
Proof.
  rewrite (@construct_ast_before_finalize default_collaborators (Tensor 0) None
             fresh_builder); reflexivity.
Defined.

(** X4: on every builder reached from the constructor, [_is_finalized] holds
    exactly when [finalized_ast] is a list; so [construct_ast] with a list
    never meets [None] there: once the builder is finalized it returns the
    finalized list followed by the items. *)
Theorem finalized_builder_has_ast `{!Collaborators} (expr : TensorBase)
    (params : option (list (string * string))) (self : KernelBuilder)
    (cs : list Call) :
  __init__ expr params = Ok self →
  (_is_finalized (run_calls cs self) = true
   ↔ is_Some (finalized_ast (run_calls cs self))) ∧
  (∀ items, _is_finalized (run_calls cs self) = true →
     ∃ l, finalized_ast (run_calls cs self) = Some l ∧
          (construct_ast (PyList items) (run_calls cs self)).1
          = Ok (Root (l ++ items))).
Proof.
  intros (Hf & Hast & _)%init_not_finalized.
  assert (_is_finalized (run_calls cs self) = true
          ↔ is_Some (finalized_ast (run_calls cs self))) as Hinv.
  { assert (_is_finalized self = true ↔ is_Some (finalized_ast self)) as H0.
    { rewrite Hf, Hast. split; [done|]. by intros [? ?]. }
    clear Hf Hast. revert self H0.
    induction cs as [|c cs IH]; intros self H0; [done|].
    rewrite run_calls_cons. apply IH.
    by apply (run_call_lifecycle c self). }
  split; [done|]. intros items Hfin.
  destruct (proj1 Hinv Hfin) as [l Hl]. exists l. split; [done|].
  by apply construct_ast_extends.
Qed.

Lemma finalized_builder_has_ast_witness :
  ∃ l, finalized_ast
         (@run_calls default_collaborators [call_coefficient_map; call_finalize]
            fresh_builder) = Some l ∧
       (construct_ast (PyList [macro_kernel])
          (@run_calls default_collaborators [call_coefficient_map; call_finalize]
             fresh_builder)).1
       = Ok (Root (l ++ [macro_kernel])).
Proof.
  apply (@finalized_builder_has_ast default_collaborators (Tensor 0) None
           fresh_builder [call_coefficient_map; call_finalize]);
    reflexivity.
Defined.

(** ** A successful [_finalize_kernels_and_update] *)

(** X5: when the terminals compile and every subkernel is on the default
    subdomain, the call returns, the builder is finalized, its finalized
    list holds the rewritten AST of every subkernel in the order of the
    context kernels, and [oriented] is the old flag or-ed with the flags
    of the subkernels. *)
Theorem finalize_collects_kernels `{!Collaborators}
    (self self1 : KernelBuilder) (cxt_kernels : list ContextKernel) :
  context_kernels self = (Ok cxt_kernels, self1) →
  forallb default_subdomain (cxt_kernels ≫= tsfc_kernels) = true →
  (_finalize_kernels_and_update self).1 = Ok () ∧
  _is_finalized (_finalize_kernels_and_update self).2 = true ∧
  finalized_ast (_finalize_kernels_and_update self).2
  = Some (rewritten_ast <$> (cxt_kernels ≫= tsfc_kernels)) ∧
  oriented (_finalize_kernels_and_update self).2
  = oriented self || existsb needs_orientation (cxt_kernels ≫= tsfc_kernels) ∧
  cached_context_kernels (_finalize_kernels_and_update self).2
  = Some cxt_kernels.
Proof.
  intros Hck Hall.
  pose proof (context_kernels_cached _ _ _ Hck) as Hcached.
  unfold _finalize_kernels_and_update. rewrite Hck, finalize_loop_spec, Hall.
  simpl. done.
Qed.

Lemma finalize_collects_kernels_witness :
  finalized_ast (@_finalize_kernels_and_update default_collaborators fresh_builder).2
  = Some [Block [Statement "subkernel0_cell_integral"]] ∧
  oriented (@_finalize_kernels_and_update default_collaborators fresh_builder).2
  = true.
Proof.
  destruct (@finalize_collects_kernels default_collaborators fresh_builder
              (@context_kernels default_collaborators fresh_builder).2
              [cell_kernel (Tensor 0) "subkernel0_" true (SubdomainName "otherwise")]
              eq_refl eq_refl) as (_ & _ & Hast & Ho & _).
  split; [exact Hast|exact Ho].
Defined.

(** X6: after [construct_ast] has left macro kernels in the finalized list, a
    further [_finalize_kernels_and_update] puts the builder back exactly
    into the state the first one left. *)
Theorem finalize_after_construct_ast `{!Collaborators}
    (self self1 : KernelBuilder) (macro_kernels : PyValue) :
  _finalize_kernels_and_update self = (Ok (), self1) →
  _finalize_kernels_and_update (construct_ast macro_kernels self1).2
  = (Ok (), self1).
Proof.
  intros Hfin.
  unfold _finalize_kernels_and_update in Hfin.
  destruct (context_kernels self) as [[ks|e] s0] eqn:Hck; [|done].
  rewrite finalize_loop_spec in Hfin.
  destruct (forallb default_subdomain (ks ≫= tsfc_kernels)) eqn:Hall; [|done].
  injection Hfin as <-.
  pose proof (context_kernels_cached _ _ _ Hck) as Hcached.
  assert (∀ ast, _finalize_kernels_and_update
            {| expression := expression s0;
               tsfc_parameters := tsfc_parameters s0;
               needs_cell_facets := needs_cell_facets s0;
               needs_mesh_layers := needs_mesh_layers s0;
               oriented := oriented self
                 || existsb (λ sk, KernelInfo.oriented (kinfo sk))
                            (ks ≫= tsfc_kernels);
               finalized_ast := ast;
               _is_finalized := true;
               temps := temps s0;
               aux_exprs := aux_exprs s0;
               cached_coefficient_map := cached_coefficient_map s0;
               cached_context_kernels := cached_context_kernels s0 |}
          = (Ok (),
             {| expression := expression s0;
               tsfc_parameters := tsfc_parameters s0;
               needs_cell_facets := needs_cell_facets s0;
               needs_mesh_layers := needs_mesh_layers s0;
               oriented := oriented self
                 || existsb (λ sk, KernelInfo.oriented (kinfo sk))
                            (ks ≫= tsfc_kernels);
               finalized_ast :=
                 Some ((λ sk, visit (_ast (KernelInfo.kernel (kinfo sk))))
                         <$> (ks ≫= tsfc_kernels));
               _is_finalized := true;
               temps := temps s0;
               aux_exprs := aux_exprs s0;
               cached_coefficient_map := cached_coefficient_map s0;
               cached_context_kernels := cached_context_kernels s0 |}))
    as Hagain.
  { intros ast. unfold _finalize_kernels_and_update, context_kernels. simpl.
    rewrite Hcached, finalize_loop_spec, Hall. simpl.
    by rewrite <-orb_assoc, orb_diag. }
  destruct macro_kernels; simpl; apply Hagain.
Qed.

Lemma finalize_after_construct_ast_witness :
  @_finalize_kernels_and_update default_collaborators
    (construct_ast (PyList [macro_kernel]) finalized_builder).2
  = (Ok (), finalized_builder).
Proof.
  apply (@finalize_after_construct_ast default_collaborators fresh_builder).
  reflexivity.
Defined.

(** ** Repeated [construct_ast] *)

(** X7: on a finalized builder the items of every call stay in the finalized
    list: after calls with the lists [ms], a call with [items] returns the
    finalized subkernels, then the items of all earlier calls in order,
    then [items]. *)
Theorem construct_ast_accumulates `{!Collaborators} (self : KernelBuilder)
    (l : list Node) (ms : list (list Node)) (items : list Node) :
  _is_finalized self = true →
  finalized_ast self = Some l →
  (construct_ast (PyList items)
     (run_calls ((λ m, call_construct_ast (PyList m)) <$> ms) self)).1
  = Ok (Root (l ++ concat ms ++ items)).
Proof.
  revert self l. induction ms as [|m ms IH]; intros self l Hf Hl.
  - simpl. by apply construct_ast_extends.
  - rewrite fmap_cons, run_calls_cons.
    destruct (construct_ast_extends self l m Hf Hl) as (_ & Hl1 & Hf1).
    change (run_call (call_construct_ast (PyList m)) self)
      with (construct_ast (PyList m) self).2.
    rewrite (IH _ (l ++ m)) by done. simpl. by rewrite <-!app_assoc.
Qed.

Lemma construct_ast_accumulates_witness :
  (construct_ast (PyList [])
     (@run_calls default_collaborators
        [call_construct_ast (PyList [macro_kernel]);
         call_construct_ast (PyList [Statement "x"])]
        finalized_builder)).1
  = Ok (Root [Block [Statement "subkernel0_cell_integral"]; macro_kernel;
              Statement "x"]).
Proof.
  apply (@construct_ast_accumulates default_collaborators finalized_builder
           [Block [Statement "subkernel0_cell_integral"]]
           [[macro_kernel]; [Statement "x"]] []);
    reflexivity.
Defined.

(** ** [coefficient] *)

Lemma od_get_None (m : CoefficientMap) (c : Coefficient) :
  ufl_count c ∉ (ufl_count ∘ fst) <$> m → od_get m c = None.
Proof.
  induction m as [|[c' v'] m IH]; simpl; intros Hnotin; [done|].
  rewrite not_elem_of_cons in Hnotin. destruct Hnotin as [Hne Hnotin].
  rewrite decide_False by done. by apply IH.
Qed.

Lemma od_get_same_count (m : CoefficientMap) (c c' : Coefficient) :
  ufl_count c = ufl_count c' → od_get m c = od_get m c'.
Proof.
  intros Heq. induction m as [|[c0 v0] m IH]; simpl; [done|].
  rewrite Heq. by rewrite IH.
Qed.

(** X8: [coefficient(c)] on a builder whose coefficient map has not been
    computed, the coefficients of the expression being pairwise distinct:
    for a coefficient of the expression it returns the symbols of its
    position, for any other coefficient it raises [KeyError]; either way
    the coefficient map is stored in the builder. *)
Theorem coefficient_lookup `{!Collaborators} (self : KernelBuilder)
    (c : Coefficient) :
  cached_coefficient_map self = None →
  NoDup (ufl_count <$> coefficients (expression self)) →
  (∀ i c', coefficients (expression self) !! i = Some c' →
           ufl_count c' = ufl_count c →
           (coefficient c self).1 = Ok (csym_info i c')) ∧
  (ufl_count c ∉ ufl_count <$> coefficients (expression self) →
   (coefficient c self).1 = Raise KeyError) ∧
  cached_coefficient_map (coefficient c self).2
  = Some (fill_coefficient_map 0 (coefficients (expression self)) []).
Proof.
  intros Hnone Hnd. unfold coefficient, coefficient_map. rewrite Hnone.
  rewrite fill_coefficient_map_distinct by done. simpl.
  split_and!.
  - intros i c' Hi Hcount. rewrite (od_get_same_count _ c c') by done.
    by rewrite (od_get_imap (λ j c, csym_info j c) _ i c' Hnd Hi).
  - intros Hnotin. rewrite od_get_None; [done|].
    rewrite list_fmap_compose, imap_fst. done.
  - by destruct (od_get _ c).
Qed.

Lemma coefficient_lookup_witness :
  (@coefficient default_collaborators mixed_coefficient fresh_builder).1
  = Ok [ {| symbol := "w_1_0" |}; {| symbol := "w_1_1" |} ] ∧
  (@coefficient default_collaborators
     {| ufl_count := 4; ufl_element := FiniteElement; split := [4] |}
     fresh_builder).1
  = Raise KeyError.
Proof.
  assert (NoDup (ufl_count <$> @coefficients default_collaborators
                                 (expression fresh_builder))) as Hnd.
  { apply (bool_decide_unpack _). vm_compute. exact I. }
  split.
  - destruct (@coefficient_lookup default_collaborators fresh_builder
                mixed_coefficient eq_refl Hnd) as (Hin & _).
    apply (Hin 1 mixed_coefficient eq_refl eq_refl).
  - destruct (@coefficient_lookup default_collaborators fresh_builder
                {| ufl_count := 4; ufl_element := FiniteElement; split := [4] |}
                eq_refl Hnd) as (_ & Hout & _).
    apply Hout. apply (bool_decide_unpack _). vm_compute. exact I.
Defined.

(** ** Decimal numbers in names *)

Lemma append_String (a : Ascii.ascii) (s t : string) :
  String a s +:+ t = String a (s +:+ t).
Proof. reflexivity. Qed.

Lemma pretty_N_char_digit (x : N) : is_Some (Ascii.is_nat (pretty_N_char x)).
Proof. unfold pretty_N_char. repeat case_match; simpl; eauto. Qed.

Lemma pretty_N_go_digits (x : N) (s : string) :
  all_digits s = true → all_digits (pretty_N_go x s) = true.
Proof.
  revert s. induction (N.lt_wf_0 x) as [x _ IH]; intros s Hs.
  assert (x = 0 ∨ 0 < x)%N as [->|Hpos] by lia.
  - by rewrite pretty_N_go_0.
  - rewrite pretty_N_go_step by done. apply IH; [by apply N.div_lt|].
    simpl. rewrite Hs, bool_decide_eq_true_2; [done|].
    apply pretty_N_char_digit.
Qed.

(** [%d] of a natural number prints decimal digits only. *)
Lemma pretty_nat_digits (n : nat) : all_digits (pretty n) = true.
Proof.
  unfold pretty, pretty_nat, pretty, pretty_N.
  destruct (decide _); [done|]. by apply pretty_N_go_digits.
Qed.

(** Two names that agree are cut at the same underscore. *)
Lemma digits_underscore_inj (a a' b b' : string) :
  all_digits a = true → all_digits a' = true →
  a +:+ String underscore b = a' +:+ String underscore b' → a = a' ∧ b = b'.
Proof.
  revert a'. induction a as [|c a IH]; intros [|c' a'] Ha Ha' Heq.
  - by injection Heq as ->.
  - rewrite append_String in Heq. injection Heq as <- _.
    simpl in Ha'. done.
  - rewrite append_String in Heq. injection Heq as -> _.
    simpl in Ha. done.
  - rewrite !append_String in Heq. injection Heq as -> Heq.
    simpl in Ha, Ha'. apply andb_prop in Ha as [_ Ha].
    apply andb_prop in Ha' as [_ Ha'].
    destruct (IH a' Ha Ha' Heq) as [-> ->]. done.
Qed.

Lemma digits_no_underscore (a b : string) :
  all_digits (a +:+ String underscore b) = false.
Proof.
  induction a as [|c a IH]; [done|].
  rewrite append_String. simpl. rewrite IH. apply andb_false_r.
Qed.

Lemma subkernel_prefix_inj (i j : nat) :
  subkernel_prefix i = subkernel_prefix j → i = j.
Proof.
  unfold subkernel_prefix. intros Heq%(inj (String.app _)).
  apply (digits_underscore_inj _ _ "" "") in Heq as [Heq _];
    [by apply (inj pretty)|apply pretty_nat_digits..].
Qed.

(** X9: the prefixes [context_kernels] gives to the terminals are pairwise
    distinct: the subkernels of two terminals never share a name prefix. *)
Theorem subkernel_prefixes_distinct (n : nat) :
  NoDup (subkernel_prefix <$> seq 0 n).
Proof.
  apply NoDup_fmap_2_strong; [|apply NoDup_seq].
  intros i j _ _. apply subkernel_prefix_inj.
Qed.

(** ** The symbols of the coefficients *)

Lemma csym_info_elem_of (i : nat) (c : Coefficient) (s : Symbol) :
  s ∈ csym_info i c →
  symbol s = "w_" +:+ pretty i ∨
  ∃ j : nat, symbol s = "w_" +:+ pretty i +:+ String underscore (pretty j).
Proof.
  unfold csym_info. destruct (decide _).
  - rewrite imap_const_seq. intros (j & -> & _)%list_elem_of_fmap. right. eauto.
  - intros ->%list_elem_of_singleton. by left.
Qed.

Lemma csym_info_NoDup (i : nat) (c : Coefficient) : NoDup (csym_info i c).
Proof.
  unfold csym_info. destruct (decide _); [|apply NoDup_singleton].
  rewrite imap_const_seq. apply NoDup_fmap_2_strong; [|apply NoDup_seq].
  intros j j' _ _ [= Heq].
  apply (inj (String.app _)), (inj (String.app _)) in Heq.
  injection Heq as Heq. by apply (inj pretty).
Qed.

Lemma csym_info_index (i i' : nat) (c c' : Coefficient) (s : Symbol) :
  s ∈ csym_info i c → s ∈ csym_info i' c' → i = i'.
Proof.
  intros [H1|[j H1]]%csym_info_elem_of [H2|[j' H2]]%csym_info_elem_of;
    rewrite H1 in H2; apply (inj (String.app _)) in H2.
  - by apply (inj pretty).
  - pose proof (pretty_nat_digits i) as Hd. rewrite H2 in Hd.
    by rewrite digits_no_underscore in Hd.
  - pose proof (pretty_nat_digits i') as Hd. rewrite <-H2 in Hd.
    by rewrite digits_no_underscore in Hd.
  - apply digits_underscore_inj in H2 as [H2 _];
      [by apply (inj pretty)|apply pretty_nat_digits..].
Qed.

Lemma elem_of_concat {A : Type} (x : A) (ls : list (list A)) :
  x ∈ concat ls ↔ ∃ l, x ∈ l ∧ l ∈ ls.
Proof.
  induction ls as [|l ls IH]; simpl.
  - split; [by intros ?%elem_of_nil|]. by intros (l & _ & ?%elem_of_nil).
  - rewrite elem_of_app, IH. split.
    + intros [Hx|(l' & Hx & Hl')]; [exists l|exists l']; split; auto;
        [left|by right].
    + intros (l' & Hx & [->|Hl']%elem_of_cons); [by left|right; eauto].
Qed.

Lemma NoDup_concat_imap {A B : Type} (g : nat → A → list B) (l : list A) :
  (∀ i x, l !! i = Some x → NoDup (g i x)) →
  (∀ i j x y b, l !! i = Some x → l !! j = Some y →
                b ∈ g i x → b ∈ g j y → i = j) →
  NoDup (concat (imap g l)).
Proof.
  revert g. induction l as [|x l IH]; intros g Hnd Hdisj; simpl.
  - apply NoDup_nil_2.
  - apply NoDup_app. split_and!.
    + by apply (Hnd 0).
    + intros b Hb (bs & Hbs & Hin)%elem_of_concat.
      apply list_elem_of_lookup in Hin as [j Hj].
      rewrite list_lookup_imap in Hj.
      destruct (l !! j) as [y|] eqn:Hy; [|done]. simpl in Hj. simplify_eq.
      by specialize (Hdisj 0 (S j) x y b eq_refl Hy Hb Hbs).
    + apply IH.
      * intros i y Hy. by apply (Hnd (S i)).
      * intros i j y z b Hy Hz Hb Hb'.
        by specialize (Hdisj (S i) (S j) y z b Hy Hz Hb Hb') as [= ->].
Qed.

(** X10: the symbols [coefficient_map] hands out are pairwise distinct, within
    one coefficient and across coefficients: no two kernel arguments get
    the same name. *)
Theorem coefficient_symbols_distinct `{!Collaborators} (self : KernelBuilder) :
  cached_coefficient_map self = None →
  NoDup (ufl_count <$> coefficients (expression self)) →
  NoDup (concat (coefficient_map self).1.*2).
Proof.
  intros Hnone Hnd. unfold coefficient_map. rewrite Hnone. simpl.
  rewrite fill_coefficient_map_distinct by done. simpl.
  rewrite fmap_imap.
  apply (NoDup_concat_imap (λ i c, csym_info i c)).
  - intros i c _. apply csym_info_NoDup.
  - intros i j c c' s _ _. apply csym_info_index.
Qed.

Lemma coefficient_symbols_distinct_witness :
  NoDup (concat (@coefficient_map default_collaborators fresh_builder).1.*2).
Proof.
  apply (@coefficient_symbols_distinct default_collaborators fresh_builder).
  - reflexivity.
  - apply (bool_decide_unpack _). vm_compute. exact I.
Defined.

(** ** [context_kernels] *)

Lemma compile_terminals_Ok `{!Collaborators} (exprs : list TensorBase) (i : nat)
    (params : option (list (string * string)))
    (cxt_list : list (list ContextKernel)) :
  compile_terminals i exprs params = Ok cxt_list →
  length cxt_list = length exprs ∧
  ∀ k expr, exprs !! k = Some expr →
    ∃ cxt_tuple, cxt_list !! k = Some cxt_tuple ∧
      compile_terminal_form expr (subkernel_prefix (i + k)) params = Ok cxt_tuple.
Proof.
  revert i cxt_list. induction exprs as [|expr exprs IH]; intros i cxt_list; simpl.
  - intros [= <-]. split; [done|]. intros k e. by rewrite lookup_nil.
  - destruct (compile_terminal_form expr _ params) as [cxt_tuple|e] eqn:Hexpr;
      [|done].
    destruct (compile_terminals (S i) exprs params) as [rest|e] eqn:Hrest; [|done].
    intros [= <-]. destruct (IH _ _ Hrest) as [Hlen Hall].
    split; [simpl; by rewrite Hlen|].
    intros [|k] e Hk; simpl in *.
    + simplify_eq. exists cxt_tuple. by rewrite Nat.add_0_r.
    + destruct (Hall k e Hk) as (r & Hr & Hc). exists r.
      by rewrite Nat.add_succ_r.
Qed.

Lemma compile_terminals_Raise `{!Collaborators} (exprs : list TensorBase)
    (i k : nat) (params : option (list (string * string))) (expr : TensorBase)
    (e : exn) :
  exprs !! k = Some expr →
  compile_terminal_form expr (subkernel_prefix (i + k)) params = Raise e →
  (∀ j expr', j < k → exprs !! j = Some expr' →
     ∃ cxt_tuple,
       compile_terminal_form expr' (subkernel_prefix (i + j)) params = Ok cxt_tuple) →
  compile_terminals i exprs params = Raise e.
Proof.
  revert i k. induction exprs as [|expr0 exprs IH]; intros i k Hk He Hbefore;
    [done|].
  destruct k as [|k]; simpl in *.
  - simplify_eq. rewrite Nat.add_0_r in He. unfold subkernel_prefix in He.
    by rewrite He.
  - destruct (Hbefore 0 expr0) as [r Hr]; [lia|done|].
    rewrite Nat.add_0_r in Hr. unfold subkernel_prefix in Hr. rewrite Hr.
    rewrite (IH (S i) k); [done|done|by rewrite Nat.add_succ_r in He|].
    intros j expr' Hj Hexpr'. destruct (Hbefore (S j) expr') as [r' Hr'];
      [lia|done|]. exists r'. by rewrite Nat.add_succ_r in Hr'.
Qed.

(** X11: the context kernels are those of the terminals, one compilation per
    entry of [temps], concatenated in the order of [temps]; the terminal
    at position [k] is compiled with the prefix [subkernel<k>_]. *)
Theorem context_kernels_in_order `{!Collaborators}
    (self self1 : KernelBuilder) (cxt_kernels : list ContextKernel) :
  cached_context_kernels self = None →
  context_kernels self = (Ok cxt_kernels, self1) →
  ∃ cxt_list,
    cxt_kernels = concat cxt_list ∧
    length cxt_list = length (temps self) ∧
    (∀ k expr sym, temps self !! k = Some (expr, sym) →
       ∃ cxt_tuple, cxt_list !! k = Some cxt_tuple ∧
         compile_terminal_form expr (subkernel_prefix k) (tsfc_parameters self)
         = Ok cxt_tuple) ∧
    cached_context_kernels self1 = Some cxt_kernels.
Proof.
  intros Hnone Hck.
  pose proof (context_kernels_cached _ _ _ Hck) as Hcached.
  unfold context_kernels in Hck. rewrite Hnone in Hck.
  destruct (compile_terminals 0 (temps self).*1 (tsfc_parameters self))
    as [cxt_list|e] eqn:Hcompile; [|done].
  injection Hck as <- _.
  destruct (compile_terminals_Ok _ _ _ _ Hcompile) as [Hlen Hall].
  exists cxt_list. split_and!; [done|by rewrite Hlen, length_fmap| |done].
  intros k expr sym Hk. apply (Hall k expr).
  by apply (list_lookup_fmap_Some_2 fst _ _ (expr, sym)).
Qed.

Lemma context_kernels_in_order_witness :
  ∃ cxt_list,
    [cell_kernel (Tensor 0) "subkernel0_" true (SubdomainName "otherwise")]
    = concat cxt_list ∧
    length cxt_list = length (temps fresh_builder).
Proof.
  destruct (@context_kernels_in_order default_collaborators fresh_builder _
              [cell_kernel (Tensor 0) "subkernel0_" true (SubdomainName "otherwise")]
              eq_refl eq_refl) as (cxt_list & Hcat & Hlen & _).
  by exists cxt_list.
Defined.

(** X12: when the compilation of a terminal fails, the terminals before it
    having compiled, [context_kernels] raises that failure and stores
    nothing, and [_finalize_kernels_and_update] raises it too; the builder
    is left as it was. *)
Theorem compilation_failure_propagates `{!Collaborators} (self : KernelBuilder)
    (k : nat) (expr : TensorBase) (sym : Symbol) (e : exn) :
  cached_context_kernels self = None →
  temps self !! k = Some (expr, sym) →
  compile_terminal_form expr (subkernel_prefix k) (tsfc_parameters self)
  = Raise e →
  (∀ j expr' sym', j < k → temps self !! j = Some (expr', sym') →
     ∃ cxt_tuple,
       compile_terminal_form expr' (subkernel_prefix j) (tsfc_parameters self)
       = Ok cxt_tuple) →
  context_kernels self = (Raise e, self) ∧
  _finalize_kernels_and_update self = (Raise e, self).
Proof.
  intros Hnone Hk He Hbefore. unfold Temps in *.
  assert (context_kernels self = (Raise e, self)) as Hck.
  { assert (compile_terminals 0 (temps self).*1 (tsfc_parameters self)
            = Raise e) as Hcompile.
    { apply (compile_terminals_Raise _ 0 k _ expr e); [|exact He|];
        unfold Temps in *.
      - by apply (list_lookup_fmap_Some_2 fst _ _ (expr, sym)).
      - intros j expr' Hj ([t s] & -> & Htj)%list_lookup_fmap_Some_1.
        by apply (Hbefore j t s). }
    unfold context_kernels. by rewrite Hnone, Hcompile. }
  split; [done|]. unfold _finalize_kernels_and_update. by rewrite Hck.
Qed.

Lemma compilation_failure_propagates_witness :
  ∃ self, __init__ unshared_sum None = Ok self ∧
    @_finalize_kernels_and_update failing_collaborators self
    = (Raise (CompilationError "unsupported element"), self).
Proof.
  eexists. split; [reflexivity|].
  apply (@compilation_failure_propagates failing_collaborators _ 0 (Tensor 1)
           {| symbol := "T0" |}); try reflexivity.
  intros j expr' sym' Hj. lia.
Defined.

(** ** The two results of [generate_expr_data] *)

(** X13: the temporaries and the operator list split the nodes of the
    expression: a terminal is a key of the temporaries, an operator is in
    the operator list, once, and nothing else is in either; the operator
    list is in non-decreasing order of operand count. *)
Theorem expr_data_splits_nodes (expr : TensorBase) :
  identity_coherent expr →
  (∀ s, s ∈ subterms expr →
     (s ∈ (generate_expr_data expr).1.*1 ↔ is_Tensor s) ∧
     (s ∈ (generate_expr_data expr).2 ↔ is_TensorOp s)) ∧
  (∀ s, s ∈ (generate_expr_data expr).1.*1 ∨ s ∈ (generate_expr_data expr).2 →
        s ∈ subterms expr) ∧
  NoDup (node_id <$> (generate_expr_data expr).2) ∧
  length (generate_expr_data expr).1 + length (generate_expr_data expr).2
  = length (traverse_dags [expr]) ∧
  StronglySorted (λ a b, count_operands a ≤ count_operands b)
    (generate_expr_data expr).2.
Proof.
  intros Hcoh. rewrite generate_expr_data_spec. simpl. rewrite imap_fst.
  split_and!.
  - intros s Hs. rewrite (sorted_perm count_operands), !list_elem_of_filter.
    pose proof (traverse_dags_complete expr s Hcoh Hs). tauto.
  - intros s [Hin|Hin]; [|rewrite (sorted_perm count_operands) in Hin];
      apply list_elem_of_filter in Hin as [_ Hin];
      by apply traverse_dags_subterms.
  - rewrite (sorted_perm count_operands).
    apply (NoDup_fmap_2_strong node_id).
    + intros a b [_ Ha]%list_elem_of_filter [_ Hb]%list_elem_of_filter.
      apply Hcoh; by apply traverse_dags_subterms.
    + apply NoDup_filter. eapply NoDup_fmap_1, traverse_dags_NoDup.
  - rewrite length_imap, (sorted_perm count_operands).
    rewrite <-(Permutation_length
                 (filter_app_complement is_Tensor (traverse_dags [expr]))).
    rewrite length_app. do 2 f_equal. apply list_filter_iff.
    intros [i|i a ops]; simpl; tauto.
  - apply sorted_StronglySorted.
Qed.

Lemma expr_data_splits_nodes_witness :
  length (generate_expr_data diamond).1 + length (generate_expr_data diamond).2
  = length (traverse_dags [diamond]).
Proof.
  destruct (expr_data_splits_nodes diamond diamond_coherent)
    as (_ & _ & _ & Hlen & _).
  exact Hlen.
Defined.

(** ** [_get_mtype] *)

(** The three ways [_get_mtype] can go. *)
Lemma get_mtype_cases `{!Runtime} (dat : Dat) (w : World) :
  (∃ typ, _MPI_types w !! (dtype dat, cdim dat) = Some typ ∧
          _get_mtype dat w = (Ok typ, w)) ∨
  (_MPI_types w !! (dtype dat, cdim dat) = None ∧ tdict (dtype dat) = None ∧
   _get_mtype dat w = (Raise (RuntimeError "Unknown base type %r"), w)) ∨
  (∃ btype, _MPI_types w !! (dtype dat, cdim dat) = None ∧
            tdict (dtype dat) = Some btype ∧
            _get_mtype dat w
            = (Ok (derived_mtype btype (cdim dat)),
               {| _MPI_types := <[(dtype dat, cdim dat) :=
                                   derived_mtype btype (cdim dat)]> (_MPI_types w);
                  exchanges := exchanges w |})).
Proof.
  unfold _get_mtype.
  destruct (_MPI_types w !! (dtype dat, cdim dat)) as [typ|] eqn:Hcache.
  - left. eauto.
  - destruct (tdict (dtype dat)) as [btype|] eqn:Hdict.
    + right. right. exists btype. done.
    + right. left. done.
Qed.

Lemma get_mtype_Ok `{!Runtime} (dat : Dat) (w w1 : World) (typ : MPIType) :
  _get_mtype dat w = (Ok typ, w1) →
  _MPI_types w1 !! (dtype dat, cdim dat) = Some typ ∧
  exchanges w1 = exchanges w ∧
  (∀ key typ', _MPI_types w !! key = Some typ' →
               _MPI_types w1 !! key = Some typ') ∧
  (cache_consistent w → cache_consistent w1).
Proof.
  intros Hget.
  destruct (get_mtype_cases dat w)
    as [(typ' & Hc & Heq)|[(Hc & Hd & Heq)|(btype & Hc & Hd & Heq)]];
    rewrite Heq in Hget; simplify_eq; simpl.
  - done.
  - split_and!; [by rewrite lookup_insert_eq|done| |].
    + intros key typ' Hkey. rewrite lookup_insert_ne; [done|]. congruence.
    + intros Hcons d c typ' Hlook. simpl in Hlook.
      destruct (decide ((dtype dat, cdim dat) = (d, c))) as [[= <- <-]|Hne].
      * rewrite lookup_insert_eq in Hlook. simplify_eq. eauto.
      * rewrite lookup_insert_ne in Hlook by done. by apply Hcons.
Qed.

Lemma get_mtype_Raise `{!Runtime} (dat : Dat) (w w1 : World) (e : exn) :
  _get_mtype dat w = (Raise e, w1) → w1 = w.
Proof.
  intros Hget.
  destruct (get_mtype_cases dat w)
    as [(typ' & Hc & Heq)|[(Hc & Hd & Heq)|(btype & Hc & Hd & Heq)]];
    rewrite Heq in Hget; by simplify_eq.
Qed.

(** X14: once [_get_mtype] has returned a type for a [Dat], every later call
    for a [Dat] with the same [dtype] and [cdim] returns that type from
    the dictionary [_MPI_types] and changes nothing, whatever the type
    dictionary of MPI then holds. *)
Theorem get_mtype_memoizes (R R' : Runtime) (dat dat' : Dat) (w w1 : World)
    (typ : MPIType) :
  @_get_mtype R dat w = (Ok typ, w1) →
  dtype dat' = dtype dat → cdim dat' = cdim dat →
  @_get_mtype R' dat' w1 = (Ok typ, w1).
Proof.
  intros (Hcache & _)%get_mtype_Ok Hd Hc.
  unfold _get_mtype. by rewrite Hd, Hc, Hcache.
Qed.

Lemma get_mtype_memoizes_witness :
  @_get_mtype {| tdict := λ _, None; halo_begin := λ _ d _ _, d;
                 halo_end := λ _ d _ _, d |}
    {| dtype := "d"; cdim := 2; data := [] |}
    {| _MPI_types := {[ ("d", 2) := Contiguous 2 (BaseType "MPI_DOUBLE") ]};
       exchanges := [] |}
  = (Ok (Contiguous 2 (BaseType "MPI_DOUBLE")),
     {| _MPI_types := {[ ("d", 2) := Contiguous 2 (BaseType "MPI_DOUBLE") ]};
        exchanges := [] |}).
Proof.
  apply (get_mtype_memoizes mpi_runtime _ some_dat _ empty_world); reflexivity.
Defined.

(** ** The halo operations on any number of ranks *)

(** What a halo operation does, by cases. *)
Lemma run_halo_op_cases `{!Runtime} (op : HaloOp) (self : Halo) (dat : Dat)
    (insert_mode : Access) (w : World) :
  run_halo_op op self dat insert_mode w =
  if decide (insert_mode = supported_mode op) then
    if decide (comm_size self = 1) then (Ok (), dat, w)
    else
      match _get_mtype dat w with
      | (Raise e, w1) => (Raise e, dat, w1)
      | (Ok mtype, w1) =>
          match sf self with
          | Raise e => (Raise e, dat, w1)
          | Ok s =>
              (Ok (), exchange_effect op s dat mtype,
               {| _MPI_types := _MPI_types w1;
                  exchanges := exchange_of op s mtype :: exchanges w1 |})
          end
      end
  else (Raise (AssertionError
                 (match op with
                  | GtoL_begin | GtoL_end => "Only WRITE GtoL supported"
                  | LtoG_begin | LtoG_end => "Only INC LtoG supported"
                  end)), dat, w).
Proof. destruct op; reflexivity. Qed.

(** X15: an insert mode other than the one the direction supports is rejected
    with the assertion failure on every communicator, whatever its size,
    before the [Dat], the type cache or the star forest are looked at. *)
Theorem halo_rejects_unsupported_mode `{!Runtime} (op : HaloOp) (self : Halo)
    (dat : Dat) (insert_mode : Access) (w : World) :
  insert_mode ≠ supported_mode op →
  ∃ msg, run_halo_op op self dat insert_mode w
         = (Raise (AssertionError msg), dat, w).
Proof.
  intros Hmode. rewrite run_halo_op_cases, decide_False by done. eauto.
Qed.

Lemma halo_rejects_unsupported_mode_witness :
  ∃ msg, @run_halo_op mpi_runtime LtoG_end windowed_halo
           {| dtype := "?"; cdim := 1; data := [] |} WRITE empty_world
         = (Raise (AssertionError msg),
            {| dtype := "?"; cdim := 1; data := [] |}, empty_world).
Proof.
  apply (@halo_rejects_unsupported_mode mpi_runtime). discriminate.
Defined.

(** X16: a halo operation that raises has not touched the values of the [Dat]
    and has started or completed no exchange. *)
Theorem halo_failure_moves_no_data `{!Runtime} (op : HaloOp) (self : Halo)
    (dat dat' : Dat) (insert_mode : Access) (w w' : World) (e : exn) :
  run_halo_op op self dat insert_mode w = (Raise e, dat', w') →
  dat' = dat ∧ exchanges w' = exchanges w.
Proof.
  rewrite run_halo_op_cases. intros Hrun.
  destruct (decide (insert_mode = _)); [|by simplify_eq].
  destruct (decide (comm_size self = 1)); [done|].
  destruct (_get_mtype dat w) as [[mtype|e'] w1] eqn:Hget.
  - apply get_mtype_Ok in Hget as (_ & Hex & _).
    destruct (sf self); by simplify_eq.
  - apply get_mtype_Raise in Hget. by simplify_eq.
Qed.

Lemma halo_failure_moves_no_data_witness :
  (@run_halo_op mpi_runtime GtoL_end windowed_halo some_dat WRITE empty_world).1.2
  = some_dat ∧
  exchanges
    (@run_halo_op mpi_runtime GtoL_end windowed_halo some_dat WRITE empty_world).2
  = exchanges empty_world.
Proof.
  apply (@halo_failure_moves_no_data mpi_runtime GtoL_end windowed_halo some_dat
           _ WRITE empty_world _
           (RuntimeError "Windowed SFs expose bugs in OpenMPI (use -sf_type basic)")).
  reflexivity.
Defined.

(** X17: a halo operation that returns on more than one rank was called with
    the supported insert mode on a [BASIC] star forest, and has made
    exactly one call into [dmplex]: over the pruned star forest, with the
    MPI type that [_MPI_types] now holds for the [Dat], in the forward
    direction for global-to-local and in the reverse direction for
    local-to-global. *)
Theorem halo_exchange_on_success `{!Runtime} (op : HaloOp) (self : Halo)
    (dat dat' : Dat) (insert_mode : Access) (w w' : World) :
  run_halo_op op self dat insert_mode w = (Ok (), dat', w') →
  comm_size self ≠ 1 →
  insert_mode = supported_mode op ∧ sf_is_basic self = true ∧
  ∃ mtype,
    _MPI_types w' !! (dtype dat, cdim dat) = Some mtype ∧
    exchanges w' = exchange_of op (pruned_sf self) mtype :: exchanges w ∧
    dat' = exchange_effect op (pruned_sf self) dat mtype.
Proof.
  rewrite run_halo_op_cases. intros Hrun Hsize.
  destruct (decide (insert_mode = _)); [|done].
  rewrite decide_False in Hrun by done.
  destruct (_get_mtype dat w) as [[mtype|e'] w1] eqn:Hget; [|done].
  apply get_mtype_Ok in Hget as (Hcache & Hex & _).
  unfold sf in Hrun. destruct (sf_is_basic self); [|done].
  simplify_eq. split_and!; [done..|]. exists mtype. simpl. by rewrite Hex.
Qed.

Lemma halo_exchange_on_success_witness :
  ∃ mtype,
    _MPI_types (@run_halo_op mpi_runtime LtoG_begin parallel_halo some_dat INC
                  empty_world).2 !! ("d", 2) = Some mtype ∧
    exchanges (@run_halo_op mpi_runtime LtoG_begin parallel_halo some_dat INC
                 empty_world).2
    = [halo_begin_call 0 mtype true].
Proof.
  destruct (@halo_exchange_on_success mpi_runtime LtoG_begin parallel_halo
              some_dat _ INC empty_world _ eq_refl)
    as (_ & _ & mtype & Hcache & Hex & _); [discriminate|].
  exists mtype. split; [exact Hcache|exact Hex].
Defined.

(** ** Sequences of halo operations *)

Lemma run_halo_call_cache `{!Runtime} (c : HaloCall) (w : World) :
  (∀ key typ, _MPI_types w !! key = Some typ →
              _MPI_types (run_halo_call w c) !! key = Some typ) ∧
  (cache_consistent w → cache_consistent (run_halo_call w c)).
Proof.
  unfold run_halo_call. rewrite run_halo_op_cases.
  destruct (decide (hc_mode c = _)); [|done].
  destruct (decide (comm_size (hc_halo c) = 1)); [done|].
  destruct (_get_mtype (hc_dat c) w) as [[mtype|e'] w1] eqn:Hget.
  - apply get_mtype_Ok in Hget as (_ & _ & Hgrow & Hcons).
    destruct (sf (hc_halo c)); simpl; done.
  - apply get_mtype_Raise in Hget. by subst.
Qed.

(** X18: whatever halo operations are called, an entry of [_MPI_types] is never
    removed or replaced, and if every entry is the type derived from the
    MPI type dictionary for its key, this stays so. *)
Theorem mpi_type_cache_grows `{!Runtime} (cs : list HaloCall) (w : World) :
  (∀ key typ, _MPI_types w !! key = Some typ →
              _MPI_types (run_halo_calls cs w) !! key = Some typ) ∧
  (cache_consistent w → cache_consistent (run_halo_calls cs w)).
Proof.
  revert w. induction cs as [|c cs IH]; intros w; [done|].
  unfold run_halo_calls in *. simpl.
  destruct (IH (run_halo_call w c)) as [IHgrow IHcons].
  destruct (run_halo_call_cache c w) as [Hgrow Hcons].
  split; [intros key typ Hkey; by apply IHgrow, Hgrow|auto].
Qed.

Lemma mpi_type_cache_grows_witness :
  @cache_consistent mpi_runtime
    (@run_halo_calls mpi_runtime
       [ {| hc_op := GtoL_begin; hc_halo := parallel_halo; hc_dat := some_dat;
            hc_mode := WRITE |};
         {| hc_op := GtoL_end; hc_halo := parallel_halo; hc_dat := some_dat;
            hc_mode := WRITE |} ]
       empty_world).
Proof.
  apply (@mpi_type_cache_grows mpi_runtime).
  intros d c typ Hlook. simpl in Hlook. by rewrite lookup_empty in Hlook.
Defined.

(** X19: when the begin of an exchange has returned on more than one rank, the
    end of the exchange in the same direction, for a [Dat] of the same
    [dtype] and [cdim], returns too, leaves [_MPI_types] as it is and
    completes the exchange with the MPI type and the star forest the begin
    used. *)
Theorem halo_end_follows_begin `{!Runtime} (reverse : bool) (self : Halo)
    (dat dat1 dat2 : Dat) (w w1 : World) :
  run_halo_op (begin_op reverse) self dat (supported_mode (begin_op reverse)) w
  = (Ok (), dat1, w1) →
  comm_size self ≠ 1 →
  dtype dat2 = dtype dat → cdim dat2 = cdim dat →
  ∃ mtype dat3 w2,
    run_halo_op (end_op reverse) self dat2 (supported_mode (end_op reverse)) w1
    = (Ok (), dat3, w2) ∧
    _MPI_types w2 = _MPI_types w1 ∧
    exchanges w2
    = exchange_of (end_op reverse) (pruned_sf self) mtype
        :: exchange_of (begin_op reverse) (pruned_sf self) mtype
        :: exchanges w.
Proof.
  intros Hbegin Hsize Hd Hc.
  destruct (halo_exchange_on_success _ _ _ _ _ _ _ Hbegin Hsize)
    as (_ & Hbasic & mtype & Hcache & Hex & _).
  exists mtype. rewrite run_halo_op_cases.
  rewrite decide_True by done. rewrite decide_False by done.
  unfold _get_mtype, sf. rewrite Hd, Hc, Hcache, Hbasic. simpl.
  eexists _, _. split; [reflexivity|]. simpl. by rewrite Hex.
Qed.

Lemma halo_end_follows_begin_witness :
  ∃ mtype dat3 w2,
    @run_halo_op mpi_runtime GtoL_end parallel_halo some_dat WRITE
      (@run_halo_op mpi_runtime GtoL_begin parallel_halo some_dat WRITE
         empty_world).2
    = (Ok (), dat3, w2) ∧
    _MPI_types w2
    = _MPI_types (@run_halo_op mpi_runtime GtoL_begin parallel_halo some_dat WRITE
                    empty_world).2 ∧
    exchanges w2
    = [halo_end_call 0 mtype false; halo_begin_call 0 mtype false].
Proof.
  apply (@halo_end_follows_begin mpi_runtime false parallel_halo some_dat
           some_dat some_dat empty_world);
    [reflexivity|discriminate|reflexivity..].
Defined.
